(** * Relevance selection and context assembly of the tweet bot

    A shallow embedding of [src/services/ai-service.ts] (class [AIService]):
    term extraction, relevance scoring, the raw scan of the JSON export,
    ranking, deduplication, context assembly, and the loader with its
    cached corpus.

    Modelling conventions.
    - A JavaScript string is a [string] of 8-bit characters; [toLowerCase]
      folds the ASCII letters.  The regular expressions of the source use
      [\w] and [\b] without the unicode flag, so these are ASCII classes
      in the source as well.  [\s] is modelled as the ASCII white space
      only: in the source it also matches the Unicode spaces (U+00A0 and
      the like), which the 8-bit strings do not hold as one character.
    - A [Date] is its [getTime()] value, an integer number of
      milliseconds; [Date.now()] is an explicit argument [now].
    - JavaScript numbers that hold scores are exact rationals ([Q]); the
      counters and timestamps are integers ([Z]).
    - [Array.prototype.sort] is the stable sort that ECMAScript requires,
      written as a stable insertion sort driven by the comparator.
    - A [Set] is the list of its elements in insertion order.
    - [console.log], [console.error] and the file read are recorded in a
      trace of events, so that the absence of a call is observable.
    - In comments DQ stands for the double-quote character. *)

From Stdlib Require Import Bool List Ascii String ZArith QArith Qminmax Lia Lqa.
From Stdlib Require Import Permutation Sorted DecimalString.
Import ListNotations.

Local Open Scope string_scope.
Local Open Scope Z_scope.

(** ** JavaScript strings *)

Module JsString.

Definition isUpper (c : ascii) : bool :=
  let n := N_of_ascii c in ((65 <=? n) && (n <=? 90))%N.

Definition toLowerChar (c : ascii) : ascii :=
  if isUpper c then ascii_of_N (N_of_ascii c + 32) else c.

(** [s.toLowerCase()] *)
Fixpoint toLowerCase (s : string) : string :=
  match s with
  | EmptyString => EmptyString
  | String c s' => String (toLowerChar c) (toLowerCase s')
  end.

(** [s.startsWith(p)] *)
Definition startsWith (s p : string) : bool := String.prefix p s.

(** [s.includes(p)] *)
Fixpoint includes (s p : string) : bool :=
  startsWith s p ||
  match s with
  | EmptyString => false
  | String _ s' => includes s' p
  end.

(** [\w] *)
Definition isWordChar (c : ascii) : bool :=
  let n := N_of_ascii c in
  (((48 <=? n) && (n <=? 57)) || ((65 <=? n) && (n <=? 90))
   || ((97 <=? n) && (n <=? 122)) || (n =? 95))%N.

(** [\s], on 8-bit characters *)
Definition isSpace (c : ascii) : bool :=
  let n := N_of_ascii c in (((9 <=? n) && (n <=? 13)) || (n =? 32))%N.

Definition dquote : ascii := "034"%char.

Definition isQuote (c : ascii) : bool := Ascii.eqb c dquote.

(** [s] between two double quotes *)
Definition quote (s : string) : string :=
  String dquote (s ++ String dquote EmptyString).

Definition snoc (s : string) (c : ascii) : string := s ++ String c EmptyString.

(** [s.split] at the line feed character *)
Fixpoint split_lines_aux (cur s : string) : list string :=
  match s with
  | EmptyString => [cur]
  | String c s' =>
      if Ascii.eqb c "010"%char then cur :: split_lines_aux EmptyString s'
      else split_lines_aux (snoc cur c) s'
  end.

Definition split_lines (s : string) : list string :=
  split_lines_aux EmptyString s.

(** [arr.join(sep)] *)
Definition join (sep : string) (l : list string) : string := String.concat sep l.

(** [String(n)] for an integer *)
Definition ofZ (z : Z) : string := NilZero.string_of_int (Z.to_int z).

Definition allWordChars (s : string) : bool :=
  forallb isWordChar (list_ascii_of_string s).

End JsString.

(** ** The regular expressions of the source *)

Module Regex.
Import JsString.

Definition flush (cur : string) : list string :=
  match cur with EmptyString => [] | _ => [cur] end.

(** [s.match(/\b\w+\b/g) || []]: a match starts where a word character
    follows a non-word character (or the start), [\w+] is greedy and the
    closing [\b] holds exactly at the end of the run, so the matches are
    the maximal runs of word characters, left to right.  [cur] is the run
    being read. *)
Fixpoint words_aux (cur s : string) : list string :=
  match s with
  | EmptyString => flush cur
  | String c s' =>
      if isWordChar c then words_aux (snoc cur c) s'
      else flush cur ++ words_aux EmptyString s'
  end.

Definition match_words (s : string) : list string := words_aux EmptyString s.

(** [s.match(/DQ([^DQ]+)DQ/g)?.map(p => p.slice(1, -1)) || []].
    [None]: no opening quote pending.  [Some cur]: an opening quote has
    been read, followed by the non-quote characters [cur].  A quote that
    follows an opening quote directly cannot close it ([[^DQ]+] needs one
    character), and the scan restarts with that quote as the opening one.
    An opening quote without a closing one matches nothing. *)
Fixpoint quoted_aux (st : option string) (s : string) : list string :=
  match s with
  | EmptyString => []
  | String c s' =>
      match st with
      | None => if isQuote c then quoted_aux (Some EmptyString) s'
                else quoted_aux None s'
      | Some cur =>
          if isQuote c then
            match cur with
            | EmptyString => quoted_aux (Some EmptyString) s'
            | _ => cur :: quoted_aux None s'
            end
          else quoted_aux (Some (snoc cur c)) s'
      end
  end.

Definition match_quoted (s : string) : list string := quoted_aux None s.

(** Case-insensitive match of the literal [pat] at the head of [s]
    (flag [i], pattern escaped by the source so that it is literal). *)
Definition prefix_ci (pat s : string) : bool :=
  String.prefix (toLowerCase pat) (toLowerCase s).

(** [(text.match(new RegExp(escaped pat, 'gi')) || []).length]: the
    matches do not overlap; [skip] counts the characters still covered by
    the last match.  The empty pattern matches once at every index,
    the end included. *)
Fixpoint count_matches (pat : string) (skip : nat) (s : string) : Z :=
  match s with
  | EmptyString =>
      match skip with
      | O => if prefix_ci pat EmptyString then 1 else 0
      | S _ => 0
      end
  | String _ s' =>
      match skip with
      | S k => count_matches pat k s'
      | O => if prefix_ci pat s
             then 1 + count_matches pat (Nat.pred (String.length pat)) s'
             else count_matches pat O s'
      end
  end.

Definition occurrences (text pat : string) : Z := count_matches pat O text.

Definition isWord (c : option ascii) : bool :=
  match c with Some c => isWordChar c | None => false end.

(** [\b] between [prev] and [next] *)
Definition boundary (prev next : option ascii) : bool :=
  xorb (isWord prev) (isWord next).

(** One attempt of [\b pat \b] at the head of [s], [prev] being the
    character before it. *)
Definition wordMatchAt (pat : string) (prev : option ascii) (s : string) : bool :=
  boundary prev (String.get 0 s)
  && prefix_ci pat s
  && boundary
       (match String.length pat with
        | O => prev
        | S k => String.get k s
        end)
       (String.get (String.length pat) s).

(** [new RegExp('\\b' + escaped pat + '\\b', 'gi').test(text)] *)
Fixpoint wordBoundary_aux (pat : string) (prev : option ascii) (s : string) : bool :=
  wordMatchAt pat prev s ||
  match s with
  | EmptyString => false
  | String c s' => wordBoundary_aux pat (Some c) s'
  end.

Definition wordBoundaryTest (text pat : string) : bool :=
  wordBoundary_aux pat None text.

Fixpoint skipSpaces (s : string) : string :=
  match s with
  | String c s' => if isSpace c then skipSpaces s' else s
  | EmptyString => s
  end.

(** The run [[^DQ]+] closed by a quote: [Some run] when [s] is a
    non-empty run of non-quote characters followed by a quote. *)
Fixpoint quotedRun (cur s : string) : option string :=
  match s with
  | EmptyString => None
  | String c s' =>
      if isQuote c then
        match cur with EmptyString => None | _ => Some cur end
      else quotedRun (snoc cur c) s'
  end.

(** The literal head of the pattern: DQ id DQ colon *)
Definition idKey : string := quote "id" ++ ":".

Fixpoint dropn (n : nat) (s : string) : string :=
  match n, s with
  | O, _ => s
  | S k, String _ s' => dropn k s'
  | S _, EmptyString => EmptyString
  end.

(** One attempt of [DQ id DQ:\s*DQ([^DQ]+)DQ] at the head of [s]. *)
Definition idMatchAt (s : string) : option string :=
  if String.prefix idKey s then
    match skipSpaces (dropn (String.length idKey) s) with
    | String c s' => if isQuote c then quotedRun EmptyString s' else None
    | EmptyString => None
    end
  else None.

(** [line.match(/DQ id DQ:\s*DQ([^DQ]+)DQ/)], group 1 of the leftmost
    match. *)
Fixpoint match_id (s : string) : option string :=
  match idMatchAt s with
  | Some i => Some i
  | None =>
      match s with
      | EmptyString => None
      | String _ s' => match_id s'
      end
  end.

End Regex.

(** ** Sets in insertion order *)

Module JsSet.

Definition t := list string.

Definition empty : t := [].

Definition has (s : t) (x : string) : bool := existsb (String.eqb x) s.

Definition add (s : t) (x : string) : t :=
  if has s x then s else (s ++ [x])%list.

(** [new Set(arr)] *)
Definition ofArray (l : list string) : t := fold_left add l empty.

Definition size (s : t) : Z := Z.of_nat (List.length s).

End JsSet.

(** ** Arrays *)

Section ArraySort.
Context {A : Type}.
Variable compareFn : A -> A -> Q.

(** [x] goes before the first element it does not have to follow:
    elements that compare equal keep the order of the input. *)
Fixpoint insert (x : A) (l : list A) : list A :=
  match l with
  | [] => [x]
  | y :: l' => if Qle_bool (compareFn x y) 0 then x :: l else y :: insert x l'
  end.

(** [arr.sort(compareFn)], stable *)
Definition Array_sort (l : list A) : list A := fold_right insert [] l.
End ArraySort.

(** [arr.slice(0, count)] for an integer [count]; a negative [count]
    counts from the end. *)
Definition slice0 {A : Type} (l : list A) (count : Z) : list A :=
  if 0 <=? count then firstn (Z.to_nat count) l
  else firstn (List.length l - Z.to_nat (- count)) l.

(** ** Data model *)

(** [interface Tweet]; the optional fields are [None] when undefined. *)
Record Tweet : Type := mkTweet {
  id : string;
  text : string;
  timestamp : Z;
  author : string;
  likes : option Z;
  retweets : option Z;
  replies : option Z;
  url : option string
}.

(** [interface JsonTweet], the fields the service reads. *)
Record JsonTweet : Type := mkJsonTweet {
  json_id : string;
  created_at : string;
  full_text : string;
  screen_name : string;
  favorite_count : Z;
  retweet_count : Z;
  reply_count : Z
}.

(** What the process does to the outside: reading the export file and
    writing to the console. *)
Inductive Event : Type :=
| ReadFileSync
| ReadFileAsync
| ConsoleLog (message : string)
| ConsoleError (message : string).

(** The result of an expression that may throw. *)
Inductive Completion (A : Type) : Type :=
| Normal (value : A)
| Throw (error : string).
Arguments Normal {A} value.
Arguments Throw {A} error.

(** The export file at [jsonFilePath]: its text, or [None] when it cannot
    be read. *)
Definition RawStore : Type := option string.

(** [fs.readFileSync(this.jsonFilePath, 'utf8')] *)
Definition readFile (raw : RawStore) : Completion string :=
  match raw with
  | Some content => Normal content
  | None => Throw "ENOENT: no such file or directory"
  end.

(** [x || 0] for an optional counter *)
Definition orZero (x : option Z) : Z :=
  match x with Some n => n | None => 0 end.

(** [`${x}`] for an optional counter *)
Definition showCounter (x : option Z) : string :=
  match x with Some n => JsString.ofZ n | None => "undefined" end.

Definition Qlt_bool (a b : Q) : bool := negb (Qle_bool b a).

(** ** TermExtractor *)

Definition stopWords : JsSet.t :=
  JsSet.ofArray
    [ "the"; "a"; "an"; "and"; "or"; "but"; "in"; "on"; "at"; "to"; "for";
      "of"; "with"; "by"; "is"; "are"; "was"; "were"; "be"; "been"; "have";
      "has"; "had"; "do"; "does"; "did"; "will"; "would"; "could"; "should";
      "may"; "might"; "can"; "about"; "what"; "when"; "where"; "why"; "how";
      "who"; "which"; "that"; "this"; "these"; "those"; "i"; "you"; "he";
      "she"; "it"; "we"; "they"; "me"; "him"; "her"; "us"; "them" ].

(** The semantic expansion of [extractSearchTerms]: each rule that fires
    pushes its terms. *)
Definition expandedTerms (message : string) : list string :=
  let releaseRule :=
    if JsString.includes message "release" || JsString.includes message "launch"
       || JsString.includes message "drop" || JsString.includes message "when"
    then [ "introducing"; "coming"; "going live"; "launch"; "release"; "drop";
           "available"; "announcing"; "debut" ]
    else [] in
  let ninjaRule :=
    if JsString.includes message "ninja" then [ "ninja"; "kurosun ninja" ] else [] in
  let samuraiRule :=
    if JsString.includes message "samurai" then [ "samurai"; "kurosun samurai" ] else [] in
  let hanaRule :=
    if JsString.includes message "hana" then [ "hana" ] else [] in
  releaseRule ++ ninjaRule ++ samuraiRule ++ hanaRule.

Definition keepWord (word : string) : bool :=
  (2 <? String.length word)%nat && negb (JsSet.has stopWords word).

Definition extractSearchTerms (userMessage : string) : list string :=
  let message := JsString.toLowerCase userMessage in
  let words := Regex.match_words message in
  let quotedPhrases := Regex.match_quoted message in
  let searchTerms :=
    (quotedPhrases ++ expandedTerms message ++ filter keepWord words)%list in
  JsSet.ofArray searchTerms.

(** ** ScoreEngine *)

(** The loop over the quoted phrases of the original message. *)
Definition phraseScore (tweetText originalMessage : string) : Z :=
  let quotedPhrases :=
    map JsString.toLowerCase (Regex.match_quoted originalMessage) in
  fold_left
    (fun score phrase =>
       if JsString.includes tweetText phrase then score + 100 else score)
    quotedPhrases 0.

(** What one search term adds to the score. *)
Definition termScore (tweetText term : string) : Z :=
  let termLower := JsString.toLowerCase term in
  if JsString.includes tweetText termLower then
    10 + (Regex.occurrences tweetText termLower - 1) * 5
    + (if Regex.wordBoundaryTest tweetText termLower then 5 else 0)
  else 0.

(** The score after the two matching loops, before the bonuses. *)
Definition matchScore (tweet : Tweet) (searchTerms : list string)
    (originalMessage : string) : Z :=
  let tweetText := JsString.toLowerCase (text tweet) in
  fold_left (fun score term => score + termScore tweetText term)
    searchTerms (phraseScore tweetText originalMessage).

Definition engagement (tweet : Tweet) : Z :=
  orZero (likes tweet) + orZero (retweets tweet) + orZero (replies tweet).

(** [Math.min(engagement / 10, 20)] *)
Definition engagementBonus (tweet : Tweet) : Q :=
  Qmin (engagement tweet # 10) 20.

Definition daysSincePosted (now : Z) (tweet : Tweet) : Q :=
  (now - timestamp tweet) # 86400000.

Definition recencyBonus (now : Z) (tweet : Tweet) : Q :=
  let days := daysSincePosted now tweet in
  if Qlt_bool days 30 then Qmax 0 (2 - days / 15) else 0%Q.

Definition calculateRelevanceScore (now : Z) (tweet : Tweet)
    (searchTerms : list string) (originalMessage : string) : Q :=
  (inject_Z (matchScore tweet searchTerms originalMessage)
   + engagementBonus tweet + recencyBonus now tweet)%Q.

(** ** RawScan *)

(** The inner loop over the lines around line [i]. *)
Definition scanContext (lines : list string) (i : nat) (found : JsSet.t) : JsSet.t :=
  let contextStart := (i - 20)%nat in
  let contextEnd := Nat.min (List.length lines) (i + 20) in
  fold_left
    (fun found j =>
       match Regex.match_id (nth j lines "") with
       | Some idMatch => JsSet.add found idMatch
       | None => found
       end)
    (seq contextStart (contextEnd - contextStart)) found.

Definition lineHasMatch (searchTerms : list string) (line : string) : bool :=
  existsb (fun term => JsString.includes line (JsString.toLowerCase term)) searchTerms.

(** The outer loop over all lines. *)
Definition scanLines (searchTerms : list string) (lines : list string) : JsSet.t :=
  fold_left
    (fun found i =>
       let line := JsString.toLowerCase (nth i lines "") in
       if lineHasMatch searchTerms line then scanContext lines i found else found)
    (seq 0 (List.length lines)) JsSet.empty.

(** The body of the [try] block: the set it has built and what it wrote,
    or the exception of the read. *)
Definition grepTry (raw : RawStore) (searchTerms : list string)
  : Completion (JsSet.t * list Event) :=
  match readFile raw with
  | Throw e => Throw e
  | Normal fileContent =>
      let found := scanLines searchTerms (JsString.split_lines fileContent) in
      Normal (found,
              [ConsoleLog ("Node.js grep found " ++ JsString.ofZ (JsSet.size found)
                           ++ " matching tweet IDs for terms: "
                           ++ JsString.join ", " searchTerms)])
  end.

(** The set is empty when the read throws: nothing was added before. *)
Definition grepSearchJsonFile (raw : RawStore) (searchTerms : list string)
  : JsSet.t * list Event :=
  match grepTry raw searchTerms with
  | Normal (found, out) => (found, ReadFileSync :: out)
  | Throw e =>
      (JsSet.empty, [ReadFileSync; ConsoleError ("Node.js grep search failed: " ++ e)])
  end.

(** ** Deduplicator *)

Definition deduplicateTweets (tweets : list Tweet) : list Tweet :=
  snd (fold_left
         (fun '(seen, deduplicated) tweet =>
            if JsSet.has seen (id tweet) then (seen, deduplicated)
            else (JsSet.add seen (id tweet), (deduplicated ++ [tweet])%list))
         tweets (JsSet.empty, [])).

(** ** Ranker and ContextAssembler *)

(** The score of one record after the boost for raw matches. *)
Definition boostedScore (now : Z) (grepMatches : JsSet.t)
    (searchTerms : list string) (userMessage : string) (tweet : Tweet) : Q :=
  let score := calculateRelevanceScore now tweet searchTerms userMessage in
  if JsSet.has grepMatches (id tweet) then (score + 50)%Q else score.

(** The loop that fills [searchResults]. *)
Definition searchResults (now : Z) (grepMatches : JsSet.t)
    (searchTerms : list string) (userMessage : string) (allTweets : list Tweet)
  : list (Tweet * Q) :=
  fold_left
    (fun results tweet =>
       let score := boostedScore now grepMatches searchTerms userMessage tweet in
       if Qlt_bool 0 score then (results ++ [(tweet, score)])%list else results)
    allTweets [].

Definition byScoreDesc (a b : Tweet * Q) : Q := (snd b - snd a)%Q.

Definition byTimeDesc (a b : Tweet) : Q := inject_Z (timestamp b - timestamp a).

Definition byTimeAsc (a b : Tweet) : Q := inject_Z (timestamp a - timestamp b).

Definition topRelevantTweets (now : Z) (grepMatches : JsSet.t)
    (userMessage : string) (allTweets : list Tweet) : list Tweet :=
  let searchTerms := extractSearchTerms userMessage in
  map fst
    (firstn 150
       (Array_sort byScoreDesc
          (searchResults now grepMatches searchTerms userMessage allTweets))).

Definition combinedTweets (now : Z) (grepMatches : JsSet.t)
    (userMessage : string) (allTweets : list Tweet) : list Tweet :=
  let recentTweets := firstn 75 allTweets in
  deduplicateTweets
    (recentTweets ++ topRelevantTweets now grepMatches userMessage allTweets).

Definition searchAllTweets (now : Z) (raw : RawStore) (userMessage : string)
    (allTweets : list Tweet) : list Tweet * list Event :=
  let searchTerms := extractSearchTerms userMessage in
  let '(grepMatches, out) := grepSearchJsonFile raw searchTerms in
  (firstn 200
     (Array_sort byTimeDesc (combinedTweets now grepMatches userMessage allTweets)),
   out).

(** ** The service object *)

(** The fields of [AIService] that the modelled methods use.  [tweets],
    [jsonData] and [isLoaded] are assigned by the methods; [jsonFilePath],
    [mainHandle] and [retweetHandles] are read-only. *)
Record AIService : Type := mkAIService {
  tweets : list Tweet;
  jsonFilePath : string;
  jsonData : list JsonTweet;
  isLoaded : bool;
  mainHandle : string;
  retweetHandles : list string
}.

Definition set_tweets (this : AIService) (v : list Tweet) : AIService :=
  mkAIService v (jsonFilePath this) (jsonData this) (isLoaded this)
    (mainHandle this) (retweetHandles this).

Definition set_jsonData (this : AIService) (v : list JsonTweet) : AIService :=
  mkAIService (tweets this) (jsonFilePath this) v (isLoaded this)
    (mainHandle this) (retweetHandles this).

Definition set_isLoaded (this : AIService) (v : bool) : AIService :=
  mkAIService (tweets this) (jsonFilePath this) (jsonData this) v
    (mainHandle this) (retweetHandles this).

(** What a call finds outside the object: the export file and the clock. *)
Record World : Type := mkWorld {
  rawStore : RawStore;
  clock : Z
}.

(** A method: it may assign fields of [this] and it leaves a trace. *)
Definition Method (A : Type) : Type := AIService -> A * AIService * list Event.

Definition ret {A : Type} (a : A) : Method A := fun this => (a, this, []).

Definition bind {A B : Type} (m : Method A) (k : A -> Method B) : Method B :=
  fun this =>
    let '(a, this1, out1) := m this in
    let '(b, this2, out2) := k a this1 in
    (b, this2, (out1 ++ out2)%list).

Definition getThis : Method AIService := fun this => (this, this, []).

Definition assign (f : AIService -> AIService) : Method unit :=
  fun this => (tt, f this, []).

Definition emit (e : Event) : Method unit := fun this => (tt, this, [e]).

Notation "x <- m ;; k" := (bind m (fun x => k))
  (at level 61, m at next level, right associativity).
Notation "m ;;; k" := (bind m (fun _ => k))
  (at level 61, right associativity).

Definition result {A : Type} (r : A * AIService * list Event) : A := fst (fst r).
Definition after {A : Type} (r : A * AIService * list Event) : AIService := snd (fst r).
Definition trace {A : Type} (r : A * AIService * list Event) : list Event := snd r.

Definition emptyCorpusMessage : string := "No tweets available in memory.".

Section Host.

(** [new Date(t).toLocaleDateString()], which depends on the locale of
    the host. *)
Variable toLocaleDateString : Z -> string.

(** [JSON.parse] followed by the reading of the result as an array of
    [JsonTweet]: [None] when the text does not parse, or when the parsed
    value is not such an array, in which case the [filter] or [map] of the
    loader throws inside the same [try] block. *)
Variable JSON_parse : string -> option (list JsonTweet).

(** [new Date(created_at).getTime()] *)
Variable Date_parse : string -> Z.

Definition renderTweet (tweet : Tweet) : string :=
  let dateStr := toLocaleDateString (timestamp tweet) in
  let engagement :=
    "[" ++ showCounter (likes tweet) ++ " likes, "
        ++ showCounter (retweets tweet) ++ " RTs, "
        ++ showCounter (replies tweet) ++ " replies]" in
  let url :=
    match url tweet with
    | Some u => if String.eqb u "" then "" else " URL: " ++ u
    | None => ""
    end in
  "[" ++ dateStr ++ "] " ++ text tweet ++ " " ++ engagement ++ url.

Definition LF : string := String "010"%char EmptyString.

(** [tweets[tweets.length - 1]] and [tweets[0]] of a non-empty array. *)
Definition dateRange (tweets : list Tweet) : string :=
  match tweets, rev tweets with
  | newest :: _, oldest :: _ =>
      toLocaleDateString (timestamp oldest) ++ " to "
      ++ toLocaleDateString (timestamp newest)
  | _, _ => "No date range"
  end.

Definition buildSmartContext (handle : string) (now : Z) (raw : RawStore)
    (userMessage : string) (tweets : list Tweet) : string * list Event :=
  match tweets with
  | [] => (emptyCorpusMessage, [])
  | _ :: _ =>
      let '(relevantTweets, out) := searchAllTweets now raw userMessage tweets in
      let tweetTexts := JsString.join (LF ++ LF) (map renderTweet relevantTweets) in
      let totalTweets := JsString.ofZ (Z.of_nat (List.length tweets)) in
      let searchTerms := extractSearchTerms userMessage in
      let searchDebugInfo :=
        match searchTerms with
        | [] => ""
        | _ => LF ++ "Search terms used: " ++ JsString.join ", " searchTerms
        end in
      ("Complete Twitter history from @" ++ handle ++ " (" ++ totalTweets
       ++ " total tweets from " ++ dateRange tweets ++ "):" ++ LF ++ LF
       ++ "Searched through ALL " ++ totalTweets ++ " tweets - Including "
       ++ JsString.ofZ (Z.of_nat (List.length relevantTweets))
       ++ " most relevant tweets" ++ searchDebugInfo ++ ":" ++ LF ++ LF
       ++ tweetTexts,
       out)
  end.

(** ** Loader *)

Definition getFallbackTweets (handle : string) (now : Z) : list Tweet :=
  [ mkTweet "fallback_1"
      "Building amazing AI experiences with cutting-edge technology!"
      now handle (Some 0) (Some 0) (Some 0) None;
    mkTweet "fallback_2"
      "Innovation in AI is accelerating faster than ever before."
      (now - 3600000) handle (Some 0) (Some 0) (Some 0) None ].

Definition convertJsonTweetToTweet (handle : string) (jsonTweet : JsonTweet) : Tweet :=
  mkTweet (json_id jsonTweet) (full_text jsonTweet)
    (Date_parse (created_at jsonTweet))
    (if String.eqb (screen_name jsonTweet) "" then handle else screen_name jsonTweet)
    (Some (favorite_count jsonTweet))
    (Some (retweet_count jsonTweet))
    (Some (reply_count jsonTweet))
    (Some ("https://twitter.com/" ++ handle ++ "/status/" ++ json_id jsonTweet)).

(** The predicate of the [filter] of the loader. *)
Definition keepJsonTweet (handles : list string) (tweet : JsonTweet) : bool :=
  if String.eqb (full_text tweet) "" then false
  else if negb (JsString.startsWith (full_text tweet) "RT @") then true
  else
    existsb
      (fun handle =>
         JsString.startsWith (JsString.toLowerCase (full_text tweet))
           ("rt @" ++ handle ++ ":"))
      handles.

(** The [try] block of [loadJsonData] up to the assignment of
    [this.tweets]. *)
Definition loadTry (this : AIService) (raw : RawStore)
  : Completion (list JsonTweet * list Tweet) :=
  match readFile raw with
  | Throw e => Throw e
  | Normal jsonContent =>
      match JSON_parse jsonContent with
      | None => Throw "SyntaxError"
      | Some json =>
          Normal (json,
                  Array_sort byTimeDesc
                    (map (convertJsonTweetToTweet (mainHandle this))
                       (filter (keepJsonTweet (retweetHandles this)) json)))
      end
  end.

Definition logTweetRange (tweets : list Tweet) : list Event :=
  match tweets, rev tweets with
  | newestTweet :: _, oldestTweet :: _ =>
      [ConsoleLog ("Tweet range: " ++ toLocaleDateString (timestamp newestTweet)
                   ++ " to " ++ toLocaleDateString (timestamp oldestTweet))]
  | _, _ => []
  end.

Definition loadJsonData (w : World) : Method unit :=
  this <- getThis ;;
  if isLoaded this then ret tt
  else
    emit (ConsoleLog "Loading Twitter JSON export file...") ;;;
    emit ReadFileAsync ;;;
    match loadTry this (rawStore w) with
    | Normal (json, loaded) =>
        assign (fun this => set_jsonData this json) ;;;
        assign (fun this => set_tweets this loaded) ;;;
        assign (fun this => set_isLoaded this true) ;;;
        emit (ConsoleLog ("Successfully loaded "
                          ++ JsString.ofZ (Z.of_nat (List.length loaded))
                          ++ " tweets from JSON file")) ;;;
        fun this => (tt, this, logTweetRange loaded)
    | Throw e =>
        emit (ConsoleError ("Error loading JSON file '" ++ jsonFilePath this
                            ++ "': " ++ e)) ;;;
        emit (ConsoleError ("Make sure the file 'twitter-UserTweets-"
                            ++ mainHandle this
                            ++ ".json' exists in the project root.")) ;;;
        assign (fun this => set_tweets this
                              (getFallbackTweets (mainHandle this) (clock w))) ;;;
        assign (fun this => set_isLoaded this true)
    end.

(** ** Read operations *)

Definition getAllTweets (w : World) : Method (list Tweet) :=
  loadJsonData w ;;;
  this <- getThis ;;
  ret (tweets this).

Definition getTweetsByKeyword (w : World) (keyword : string) : Method (list Tweet) :=
  loadJsonData w ;;;
  this <- getThis ;;
  let searchTerm := JsString.toLowerCase keyword in
  ret (filter
         (fun tweet =>
            JsString.includes (JsString.toLowerCase (text tweet)) searchTerm
            || JsString.includes (JsString.toLowerCase (author tweet)) searchTerm)
         (tweets this)).

Definition getRecentTweets (w : World) (count : Z) : Method (list Tweet) :=
  loadJsonData w ;;;
  this <- getThis ;;
  ret (slice0 (tweets this) count).

Record TweetStats : Type := mkTweetStats {
  totalTweets : Z;
  oldestTweet : option Z;
  newestTweet : option Z;
  averageLength : Z
}.

(** [Math.round(a / b)] for integers, [b] positive: halves go up. *)
Definition roundDiv (a b : Z) : Z := (2 * a + b) / (2 * b).

(** [this.tweets.sort(...)] sorts the array of the object in place and
    returns that same array. *)
Definition getTweetStats (w : World) : Method TweetStats :=
  loadJsonData w ;;;
  this <- getThis ;;
  match tweets this with
  | [] => ret (mkTweetStats 0 None None 0)
  | _ :: _ =>
      assign (fun this => set_tweets this (Array_sort byTimeAsc (tweets this))) ;;;
      this <- getThis ;;
      let sortedTweets := tweets this in
      let totalLength :=
        fold_left (fun sum tweet => sum + Z.of_nat (String.length (text tweet)))
          (tweets this) 0 in
      let n := Z.of_nat (List.length (tweets this)) in
      ret (mkTweetStats n
             (option_map timestamp (hd_error sortedTweets))
             (option_map timestamp (hd_error (rev sortedTweets)))
             (roundDiv totalLength n))
  end.

Definition clearMemory : Method unit :=
  assign (fun this => set_tweets this []) ;;;
  assign (fun this => set_jsonData this []) ;;;
  assign (fun this => set_isLoaded this false) ;;;
  emit (ConsoleLog "Memory cleared").

(** [this.buildSmartContext(userMessage, tweets || this.tweets)] after
    [await this.loadJsonData()], the first steps of [generateResponse]. *)
Definition contextForResponse (w : World) (userMessage : string)
    (given : option (list Tweet)) : Method string :=
  loadJsonData w ;;;
  this <- getThis ;;
  let tweetsToUse := match given with Some l => l | None => tweets this end in
  let '(context, out) :=
    buildSmartContext (mainHandle this) (clock w) (rawStore w) userMessage tweetsToUse in
  fun this => (context, this, out).

(** ** The refresh route of the server *)

Definition refreshSign : string :=
  String "240"%char (String "159"%char (String "148"%char (String "132"%char ""))).

Definition checkSign : string :=
  String "226"%char (String "156"%char (String "133"%char "")).

(** The handler of [POST /refresh-tweets]: the reply is the message and
    the count.  No call of its [try] block throws, so the [catch] with
    the status 500 is not reached. *)
Definition refreshTweets (w : World) : Method (string * Z) :=
  emit (ConsoleLog (refreshSign
                    ++ " Manual tweet refresh triggered via API (loading from JSON)")) ;;;
  clearMemory ;;;
  tweets <- getAllTweets w ;;
  emit (ConsoleLog (checkSign ++ " Manual refresh complete")) ;;;
  ret ("Tweets refreshed from JSON file successfully", Z.of_nat (List.length tweets)).

End Host.

(** ** Vocabulary of the properties *)

(** The deduplication as a recursion on the input, [seen] being the
    identifiers already met. *)
Fixpoint dedupFrom (seen : JsSet.t) (l : list Tweet) : list Tweet :=
  match l with
  | [] => []
  | tweet :: rest =>
      if JsSet.has seen (id tweet) then dedupFrom seen rest
      else tweet :: dedupFrom (JsSet.add seen (id tweet)) rest
  end.

(** A corpus sorted newest-first. *)
Definition newerOrEqual (a b : Tweet) : Prop := timestamp b <= timestamp a.

Definition newestFirst (corpus : list Tweet) : Prop := Sorted newerOrEqual corpus.

(** The first occurrence of each element, in the order of the list. *)
Fixpoint keepFirst (l : list string) : list string :=
  match l with
  | [] => []
  | x :: rest => x :: filter (fun y => negb (String.eqb y x)) (keepFirst rest)
  end.

(** The pieces of [s] between the characters outside the class [cls]; a
    piece may be empty. *)
Fixpoint pieces (cls : ascii -> bool) (s : string) : list string :=
  match s with
  | EmptyString => [EmptyString]
  | String c s' =>
      if cls c then
        match pieces cls s' with
        | p :: ps => String c p :: ps
        | [] => [String c EmptyString]
        end
      else EmptyString :: pieces cls s'
  end.

Definition nonEmpty (s : string) : bool := negb (String.eqb s "").

(** The maximal runs of characters of the class [cls]. *)
Definition runsOf (cls : ascii -> bool) (s : string) : list string :=
  filter nonEmpty (pieces cls s).

Definition isAlnum (c : ascii) : bool :=
  JsString.isWordChar c && negb (Ascii.eqb c "_"%char).

(** The text outside the quoted phrases: each phrase, with its two
    quotes, is replaced by a space.  [pending] holds the opening quote and
    what follows it while the phrase is not closed. *)
Fixpoint unquoted_aux (pending : option string) (s : string) : string :=
  match s with
  | EmptyString => match pending with Some p => p | None => EmptyString end
  | String c s' =>
      match pending with
      | None =>
          if JsString.isQuote c
          then unquoted_aux (Some (String c EmptyString)) s'
          else String c (unquoted_aux None s')
      | Some p =>
          if JsString.isQuote c then
            match p with
            | String _ EmptyString => String c (unquoted_aux (Some p) s')
            | _ => String " "%char (unquoted_aux None s')
            end
          else unquoted_aux (Some (JsString.snoc p c)) s'
      end
  end.

Definition unquotedPortion (s : string) : string := unquoted_aux None s.

(** The term set as the specification words it: the word tokens are the
    alphanumeric runs of the unquoted portion of the lowercased query. *)
Definition specifiedTermSet (userMessage : string) : list string :=
  let message := JsString.toLowerCase userMessage in
  keepFirst
    (Regex.match_quoted message ++ expandedTerms message
     ++ filter keepWord (runsOf isAlnum (unquotedPortion message)))%list.

(** A query that consists of stop words only: it has no double quote, and
    every word of it, lowercased, is a stop word. *)
Definition onlyStopWords (userMessage : string) : Prop :=
  JsString.includes userMessage (String JsString.dquote EmptyString) = false /\
  Forall (fun word => JsSet.has stopWords word = true)
    (Regex.match_words (JsString.toLowerCase userMessage)).

(** The words that fire an expansion rule. *)
Definition triggers : list string :=
  [ "release"; "launch"; "drop"; "when"; "ninja"; "samurai"; "hana" ].

(** The engagement and recency bonuses of a record. *)
Definition bonus (now : Z) (tweet : Tweet) : Q :=
  (engagementBonus tweet + recencyBonus now tweet)%Q.

(** The result of the assembly when only the recency window contributes. *)
Definition recencyWindowOnly (allTweets : list Tweet) : list Tweet :=
  firstn 200 (Array_sort byTimeDesc (deduplicateTweets (firstn 75 allTweets))).

(** A quoted phrase of the query that the text of the record contains,
    case-insensitively. *)
Definition hasQuotedPhrase (tweet : Tweet) (originalMessage : string) : Prop :=
  exists phrase,
    In phrase (Regex.match_quoted originalMessage) /\
    JsString.includes (JsString.toLowerCase (text tweet))
      (JsString.toLowerCase phrase) = true.

(** A record paired with its boosted score, and the test of the loop. *)
Definition candidateOf (now : Z) (grepMatches : JsSet.t) (searchTerms : list string)
    (userMessage : string) (tweet : Tweet) : Tweet * Q :=
  (tweet, boostedScore now grepMatches searchTerms userMessage tweet).

Definition positive (p : Tweet * Q) : bool := Qlt_bool 0 (snd p).

(** ** Discord bot: the chunks of a long reply *)

Definition maxLength : nat := 2000.

(** [[.!?]] *)
Definition isSentenceEnd (c : option ascii) : bool :=
  match c with
  | Some c => Ascii.eqb c "."%char || Ascii.eqb c "!"%char || Ascii.eqb c "?"%char
  | None => false
  end.

(** [message.split(/(?<=[.!?])\s+/)]: a separator is a maximal run of
    white space that follows one of the three marks.  [inSep] holds while
    such a run is being skipped, [prev] is the character before the current
    one, [cur] the piece being read.  A separator at the end of the message
    leaves an empty last piece. *)
Fixpoint splitSentences_aux (inSep : bool) (prev : option ascii) (cur s : string)
  : list string :=
  match s with
  | EmptyString => [cur]
  | String c s' =>
      if JsString.isSpace c && (inSep || isSentenceEnd prev) then
        if inSep then splitSentences_aux true (Some c) cur s'
        else cur :: splitSentences_aux true (Some c) EmptyString s'
      else splitSentences_aux false (Some c) (JsString.snoc cur c) s'
  end.

Definition splitSentences (message : string) : list string :=
  splitSentences_aux false None EmptyString message.

(** One turn of the loop of [splitMessage] on [chunks] and
    [currentChunk]. *)
Definition splitStep (st : list string * string) (sentence : string)
  : list string * string :=
  let '(chunks, currentChunk) := st in
  if (String.length currentChunk + String.length sentence + 1 <=? maxLength)%nat then
    (chunks,
     (currentChunk ++ (if nonEmpty currentChunk then " " else "") ++ sentence)%string)
  else if nonEmpty currentChunk then ((chunks ++ [currentChunk])%list, sentence)
  else ((chunks ++ [String.substring 0 maxLength sentence])%list, currentChunk).

Definition splitMessage (message : string) : list string :=
  if (String.length message <=? maxLength)%nat then [message]
  else
    let '(chunks, currentChunk) :=
      fold_left splitStep (splitSentences message) ([], EmptyString) in
    if nonEmpty currentChunk then (chunks ++ [currentChunk])%list else chunks.

(** ** More vocabulary *)

Definition olderOrEqual (a b : Tweet) : Prop := timestamp a <= timestamp b.

(** The sum of the lengths of the texts. *)
Definition totalTextLength (l : list Tweet) : Z :=
  fold_left (fun sum tweet => sum + Z.of_nat (String.length (text tweet))) l 0.

(** A string without upper-case letters. *)
Definition isLowerCase (s : string) : bool :=
  forallb (fun c => negb (JsString.isUpper c)) (list_ascii_of_string s).

Definition noQuote (s : string) : bool :=
  forallb (fun c => negb (JsString.isQuote c)) (list_ascii_of_string s).

Definition allSpaces (s : string) : bool :=
  forallb JsString.isSpace (list_ascii_of_string s).

(** The text [s], [n] times. *)
Fixpoint repeatString (n : nat) (s : string) : string :=
  match n with
  | O => EmptyString
  | S k => (s ++ repeatString k s)%string
  end.



(** ** Sample data *)

Definition newerTweet : Tweet :=
  mkTweet "2" "second post" 2000 "tekkusai" (Some 0) (Some 0) (Some 0) None.

Definition olderTweet : Tweet :=
  mkTweet "1" "first post" 1000 "tekkusai" (Some 0) (Some 0) (Some 0) None.

(** A service that has loaded a corpus of two records, newest first. *)
Definition loadedService : AIService :=
  mkAIService [newerTweet; olderTweet] "twitter-UserTweets-tekkusai.json" []
    true "tekkusai" ["kurosunco"].

(** A service that has not loaded anything yet. *)
Definition freshService : AIService :=
  mkAIService [] "twitter-UserTweets-tekkusai.json" [] false "tekkusai"
    ["kurosunco"].

(** A record that no query term matches: no engagement, posted long
    before [sampleNow]; and a raw store in which its identifier stands next
    to the word ninja. *)
Definition silentTweet : Tweet :=
  mkTweet "42" "zzz" 0 "tekkusai" None None None None.

Definition sampleNow : Z := 10000000000000.

Definition sampleRaw : RawStore :=
  Some ("  " ++ JsString.quote "id" ++ ": " ++ JsString.quote "42" ++ ","
        ++ String "010"%char
             ("  " ++ JsString.quote "full_text" ++ ": "
              ++ JsString.quote "Ninja launching in 24 hours")).

(** A query with one quoted phrase. *)
Definition phraseQuery : string := JsString.quote "foo bar".



(** A corpus of 76 records, newest first, in which only the oldest has
    engagement. *)
Definition likedTweet (i : nat) : Tweet :=
  mkTweet (JsString.ofZ (Z.of_nat i)) "hello"
    (1000000000 - Z.of_nat i) "tekkusai"
    (if (i =? 75)%nat then Some 10 else None) None None None.

Definition likedCorpus : list Tweet := map likedTweet (seq 0 76).

(** An export of four tweets: an original one, a retweet of a configured
    handle, a retweet of another account, and one without text. *)
Definition sampleJson : list JsonTweet :=
  [ mkJsonTweet "11" "2025-07-01" "Ninja launching in 24 hours" "tekkusai" 12 3 1;
    mkJsonTweet "12" "2025-07-02" "RT @KurosunCo: Samurai is live" "tekkusai" 0 5 0;
    mkJsonTweet "13" "2025-07-03" "RT @someone: unrelated" "tekkusai" 0 1 0;
    mkJsonTweet "14" "2025-07-04" "" "tekkusai" 0 0 0 ].

(** Stand-ins for the parser and the date conversion of the host. *)
Definition sampleParse (content : string) : option (list JsonTweet) :=
  if String.eqb content "export" then Some sampleJson else None.

Definition sampleDate (created_at : string) : Z :=
  match created_at with
  | "2025-07-01" => 1751328000000
  | "2025-07-02" => 1751414400000
  | "2025-07-03" => 1751500800000
  | _ => 1751587200000
  end.

Definition sampleWorld : World := mkWorld (Some "export") sampleNow.

(** A reply of 2703 characters in 301 sentences. *)
Definition longReply : string := (repeatString 300 "abcdefg. " ++ "end")%string.

(** * Properties *)

Local Open Scope list_scope.

(** ** Sets in insertion order *)

Lemma has_app (s1 s2 : JsSet.t) (x : string) :
  JsSet.has (s1 ++ s2) x = JsSet.has s1 x || JsSet.has s2 x.
Proof. unfold JsSet.has. apply existsb_app. Qed.

Lemma has_In (s : JsSet.t) (x : string) : JsSet.has s x = true <-> In x s.
Proof.
  unfold JsSet.has. rewrite existsb_exists. split.
  - intros [y [Hy Heq]]. apply String.eqb_eq in Heq. now subst.
  - intros H. exists x. split; [assumption | apply String.eqb_refl].
Qed.

Lemma has_add (s : JsSet.t) (x y : string) :
  JsSet.has (JsSet.add s x) y = JsSet.has s y || String.eqb y x.
Proof.
  unfold JsSet.add. destruct (JsSet.has s x) eqn:Hx.
  - destruct (String.eqb_spec y x) as [-> | _].
    + rewrite Hx. reflexivity.
    + now rewrite orb_false_r.
  - rewrite has_app. simpl. now rewrite orb_false_r.
Qed.

Lemma add_NoDup (s : JsSet.t) (x : string) : NoDup s -> NoDup (JsSet.add s x).
Proof.
  intros Hs. unfold JsSet.add. destruct (JsSet.has s x) eqn:Hx; [assumption|].
  apply NoDup_app; [assumption | repeat constructor; intros [] |].
  intros y Hy [<- | []]. apply has_In in Hy. congruence.
Qed.

(** ** Stable sort *)

Section SortFacts.
Context {A : Type}.
Variable compareFn : A -> A -> Q.

Lemma insert_perm (x : A) (l : list A) :
  Permutation (insert compareFn x l) (x :: l).
Proof.
  induction l as [| y l IH]; simpl.
  - reflexivity.
  - destruct (Qle_bool (compareFn x y) 0).
    + reflexivity.
    + rewrite IH. apply perm_swap.
Qed.

Lemma Array_sort_perm (l : list A) : Permutation (Array_sort compareFn l) l.
Proof.
  induction l as [| x l IH]; simpl.
  - reflexivity.
  - rewrite insert_perm. now constructor.
Qed.

Lemma Array_sort_length (l : list A) :
  List.length (Array_sort compareFn l) = List.length l.
Proof. apply Permutation_length, Array_sort_perm. Qed.

Lemma Array_sort_In (l : list A) (x : A) :
  In x (Array_sort compareFn l) <-> In x l.
Proof.
  split; apply Permutation_in;
    [apply Array_sort_perm | symmetry; apply Array_sort_perm].
Qed.

(** An element that may stay before the head is inserted at the head. *)
Lemma insert_head (x : A) (l : list A) :
  (forall y, hd_error l = Some y -> (compareFn x y <= 0)%Q) ->
  insert compareFn x l = x :: l.
Proof.
  destruct l as [| y l]; simpl; [reflexivity|].
  intros H. specialize (H y eq_refl). apply Qle_bool_iff in H.
  now rewrite H.
Qed.

(** A prefix that is already in order, and that nothing of the rest has
    to precede, stays where it is. *)
Lemma Array_sort_prefix (l1 l2 : list A) :
  StronglySorted (fun a b => (compareFn a b <= 0)%Q) l1 ->
  (forall a b, In a l1 -> In b l2 -> (compareFn a b <= 0)%Q) ->
  Array_sort compareFn (l1 ++ l2) = l1 ++ Array_sort compareFn l2.
Proof.
  induction l1 as [| x l1 IH]; intros Hs Hle; simpl.
  - reflexivity.
  - inversion Hs as [| ? ? Hs' Hx]; subst.
    unfold Array_sort in *. simpl. rewrite IH.
    + apply insert_head. intros y Hy.
      destruct l1 as [| z l1]; simpl in Hy.
      * apply Hle; [now left|].
        apply (Array_sort_In l2). unfold Array_sort.
        destruct (fold_right (insert compareFn) [] l2); [discriminate|].
        injection Hy as ->. now left.
      * injection Hy as ->. rewrite Forall_forall in Hx. apply Hx. now left.
    + assumption.
    + intros a b Ha Hb. apply Hle; [now right | assumption].
Qed.
End SortFacts.

(** ** Deduplication *)

Lemma dedup_fold (l : list Tweet) (seen : JsSet.t) (out : list Tweet) :
  snd (fold_left
         (fun '(seen, deduplicated) tweet =>
            if JsSet.has seen (id tweet) then (seen, deduplicated)
            else (JsSet.add seen (id tweet), (deduplicated ++ [tweet])%list))
         l (seen, out))
  = (out ++ dedupFrom seen l)%list.
Proof.
  revert seen out. induction l as [| t l IH]; intros seen out; simpl.
  - now rewrite app_nil_r.
  - destruct (JsSet.has seen (id t)).
    + apply IH.
    + rewrite IH, <- app_assoc. reflexivity.
Qed.

Lemma deduplicateTweets_eq (l : list Tweet) :
  deduplicateTweets l = dedupFrom JsSet.empty l.
Proof. unfold deduplicateTweets. now rewrite dedup_fold. Qed.

Lemma dedupFrom_In (l : list Tweet) (seen : JsSet.t) (t : Tweet) :
  In t (dedupFrom seen l) -> In t l /\ JsSet.has seen (id t) = false.
Proof.
  revert seen. induction l as [| x l IH]; intros seen; simpl; [intros []|].
  destruct (JsSet.has seen (id x)) eqn:Hx.
  - intros H. apply IH in H. tauto.
  - intros [<- | H]; [tauto|]. apply IH in H. destruct H as [H1 H2].
    rewrite has_add in H2. apply orb_false_iff in H2. tauto.
Qed.

Lemma dedupFrom_NoDup (l : list Tweet) (seen : JsSet.t) :
  NoDup (map id (dedupFrom seen l)).
Proof.
  revert seen. induction l as [| x l IH]; intros seen; simpl; [constructor|].
  destruct (JsSet.has seen (id x)) eqn:Hx; [apply IH|].
  simpl. constructor; [|apply IH].
  intros Hin. apply in_map_iff in Hin. destruct Hin as [y [Hy Hin]].
  apply dedupFrom_In in Hin. destruct Hin as [_ Hin].
  rewrite has_add, Hy, String.eqb_refl, orb_true_r in Hin. discriminate.
Qed.


(** A head without repeated identifiers, none of them seen, is kept whole. *)
Lemma dedupFrom_app (l1 l2 : list Tweet) (seen : JsSet.t) :
  NoDup (map id l1) ->
  (forall t, In t l1 -> JsSet.has seen (id t) = false) ->
  dedupFrom seen (l1 ++ l2)
  = (l1 ++ dedupFrom (fold_left JsSet.add (map id l1) seen) l2)%list.
Proof.
  revert seen. induction l1 as [| x l1 IH]; intros seen Hnd Hseen; simpl.
  - reflexivity.
  - rewrite (Hseen x (or_introl eq_refl)). f_equal.
    inversion Hnd as [| ? ? Hx Hnd']; subst. apply IH; [assumption|].
    intros t Ht. rewrite has_add, (Hseen t (or_intror Ht)). simpl.
    apply String.eqb_neq. intros Heq. apply Hx. rewrite <- Heq.
    now apply in_map.
Qed.

Lemma has_fold_add (ids : list string) (seen : JsSet.t) (x : string) :
  JsSet.has (fold_left JsSet.add ids seen) x = JsSet.has seen x || JsSet.has ids x.
Proof.
  revert seen. induction ids as [| i ids IH]; intros seen; simpl.
  - now rewrite orb_false_r.
  - rewrite IH, has_add, <- orb_assoc. reflexivity.
Qed.

Lemma NoDup_firstn {A : Type} (n : nat) (l : list A) : NoDup l -> NoDup (firstn n l).
Proof.
  intros H. rewrite <- (firstn_skipn n l) in H. now apply NoDup_app_remove_r in H.
Qed.

Lemma In_firstn {A : Type} (n : nat) (l : list A) (x : A) :
  In x (firstn n l) -> In x l.
Proof.
  intros H. rewrite <- (firstn_skipn n l). apply in_or_app. now left.
Qed.

(** ** Ranking candidates *)

Lemma Qlt_bool_iff (a b : Q) : Qlt_bool a b = true <-> (a < b)%Q.
Proof.
  unfold Qlt_bool. rewrite negb_true_iff. split.
  - intros H. apply Qnot_le_lt. intros Hle. apply Qle_bool_iff in Hle. congruence.
  - intros H. destruct (Qle_bool b a) eqn:E; [|reflexivity].
    apply Qle_bool_iff in E. exfalso. exact (Qlt_not_le _ _ H E).
Qed.

Lemma searchResults_fold (now : Z) (grep : JsSet.t) (terms : list string)
    (msg : string) (l : list Tweet) (acc : list (Tweet * Q)) :
  fold_left
    (fun results tweet =>
       let score := boostedScore now grep terms msg tweet in
       if Qlt_bool 0 score then results ++ [(tweet, score)] else results)
    l acc
  = acc ++ filter positive (map (candidateOf now grep terms msg) l).
Proof.
  revert acc. induction l as [| t l IH]; intros acc; simpl.
  - now rewrite app_nil_r.
  - rewrite IH. unfold positive at 2. simpl.
    destruct (Qlt_bool 0 (boostedScore now grep terms msg t)).
    + now rewrite <- app_assoc.
    + reflexivity.
Qed.

Lemma searchResults_eq (now : Z) (grep : JsSet.t) (terms : list string)
    (msg : string) (l : list Tweet) :
  searchResults now grep terms msg l
  = filter positive (map (candidateOf now grep terms msg) l).
Proof. unfold searchResults. now rewrite searchResults_fold. Qed.

Lemma searchResults_In (now : Z) (grep : JsSet.t) (terms : list string)
    (msg : string) (l : list Tweet) (t : Tweet) (s : Q) :
  In (t, s) (searchResults now grep terms msg l) <->
  In t l /\ s = boostedScore now grep terms msg t /\ (0 < s)%Q.
Proof.
  rewrite searchResults_eq, filter_In, in_map_iff. unfold positive, candidateOf.
  simpl. rewrite Qlt_bool_iff. split.
  - intros [[x [Hx Hin]] Hpos]. injection Hx as -> ->. tauto.
  - intros [Hin [-> Hpos]]. split; [|assumption]. now exists t.
Qed.

Lemma topRelevantTweets_candidates (now : Z) (grep : JsSet.t) (msg : string)
    (l : list Tweet) (t : Tweet) :
  In t (topRelevantTweets now grep msg l) ->
  In t l /\ (0 < boostedScore now grep (extractSearchTerms msg) msg t)%Q.
Proof.
  unfold topRelevantTweets. intros H. apply in_map_iff in H.
  destruct H as [[t' s] [Heq Hin]]. simpl in Heq. subst t'.
  apply In_firstn, Array_sort_In, searchResults_In in Hin.
  destruct Hin as [Hin [-> Hpos]]. tauto.
Qed.

(** ** Assembly *)

Lemma searchAllTweets_fst (now : Z) (raw : RawStore) (msg : string) (l : list Tweet) :
  fst (searchAllTweets now raw msg l)
  = firstn 200
      (Array_sort byTimeDesc
         (combinedTweets now
            (fst (grepSearchJsonFile raw (extractSearchTerms msg))) msg l)).
Proof.
  unfold searchAllTweets.
  now destruct (grepSearchJsonFile raw (extractSearchTerms msg)).
Qed.

Lemma byTimeDesc_le (a b : Tweet) :
  (byTimeDesc a b <= 0)%Q <-> timestamp b <= timestamp a.
Proof.
  unfold byTimeDesc. change 0%Q with (inject_Z 0). rewrite <- Zle_Qle. lia.
Qed.

Lemma StronglySorted_app_inv {A : Type} (R : A -> A -> Prop) (l1 l2 : list A) :
  StronglySorted R (l1 ++ l2) ->
  StronglySorted R l1 /\ (forall a b, In a l1 -> In b l2 -> R a b).
Proof.
  induction l1 as [| x l1 IH]; simpl; intros H.
  - split; [constructor | intros a b []].
  - inversion H as [| ? ? Hs Hx]; subst. destruct (IH Hs) as [H1 H2].
    rewrite Forall_app in Hx. destruct Hx as [Hx1 Hx2]. split.
    + now constructor.
    + intros a b [<- | Ha] Hb.
      * rewrite Forall_forall in Hx2. now apply Hx2.
      * now apply H2.
Qed.

Lemma StronglySorted_weaken {A : Type} (R R' : A -> A -> Prop) (l : list A) :
  (forall a b, R a b -> R' a b) -> StronglySorted R l -> StronglySorted R' l.
Proof.
  intros Himp. induction 1 as [| x l Hs IH Hx]; constructor.
  - assumption.
  - eapply Forall_impl; [|exact Hx]. intros b. apply Himp.
Qed.

(** C3. For every query, corpus and raw store, the record set that
    [searchAllTweets] hands to the rendering has at most 200 records and no
    two of them share an identifier. *)
Theorem final_set_bounded_and_distinct (now : Z) (raw : RawStore)
    (userMessage : string) (allTweets : list Tweet) :
  let final := fst (searchAllTweets now raw userMessage allTweets) in
  (List.length final <= 200)%nat /\ NoDup (map id final).
Proof.
  cbv zeta. rewrite searchAllTweets_fst. split.
  - rewrite length_firstn. apply Nat.le_min_l.
  - rewrite <- firstn_map. apply NoDup_firstn.
    eapply Permutation_NoDup.
    + apply Permutation_map. symmetry. apply Array_sort_perm.
    + unfold combinedTweets. rewrite deduplicateTweets_eq. apply dedupFrom_NoDup.
Qed.

(** The assembled set when the corpus is newest-first with distinct
    identifiers: the recency window, then the remaining relevant records. *)
Lemma searchAllTweets_window_first (now : Z) (raw : RawStore) (msg : string)
    (l : list Tweet) :
  newestFirst l -> NoDup (map id l) ->
  exists others,
    fst (searchAllTweets now raw msg l) = firstn 75 l ++ others.
Proof.
  intros Hsorted Hnd.
  assert (Hss : StronglySorted newerOrEqual l).
  { apply Sorted_StronglySorted; [|exact Hsorted].
    intros a b c Hab Hbc. unfold newerOrEqual in *. lia. }
  rewrite <- (firstn_skipn 75 l) in Hss.
  apply StronglySorted_app_inv in Hss. destruct Hss as [Hrecent Hcross].
  assert (Hndr : NoDup (map id (firstn 75 l))).
  { rewrite <- firstn_map. now apply NoDup_firstn. }
  rewrite searchAllTweets_fst. unfold combinedTweets.
  set (top := topRelevantTweets _ _ _ _).
  rewrite deduplicateTweets_eq, dedupFrom_app; [|assumption|reflexivity].
  set (rest := dedupFrom _ top).
  assert (Hrest : forall a b, In a (firstn 75 l) -> In b rest ->
                               timestamp b <= timestamp a).
  { intros a b Ha Hb. apply dedupFrom_In in Hb. destruct Hb as [Hb Hseen].
    apply topRelevantTweets_candidates in Hb. destruct Hb as [Hb _].
    rewrite has_fold_add in Hseen.
    change (JsSet.has JsSet.empty (id b)) with false in Hseen.
    rewrite orb_false_l in Hseen.
    rewrite <- (firstn_skipn 75 l) in Hb. apply in_app_or in Hb.
    destruct Hb as [Hb | Hb].
    - exfalso. assert (JsSet.has (map id (firstn 75 l)) (id b) = true).
      { apply has_In. now apply in_map. }
      congruence.
    - now apply Hcross. }
  rewrite Array_sort_prefix.
  - rewrite firstn_app, firstn_all2.
    + eexists. reflexivity.
    + rewrite length_firstn. lia.
  - eapply StronglySorted_weaken; [|exact Hrecent].
    intros a b Hab. now apply byTimeDesc_le.
  - intros a b Ha Hb. apply byTimeDesc_le. now apply Hrest.
Qed.

(** C4. For every non-empty corpus sorted newest-first with pairwise distinct
    identifiers and every query, each record of the recency window (the
    first 75 records, or all of them when the corpus is shorter) is in the
    assembled set; the window is the head of that set. *)
Theorem recency_window_survives (now : Z) (raw : RawStore) (userMessage : string)
    (allTweets : list Tweet) (tweet : Tweet) :
  allTweets <> [] ->
  newestFirst allTweets ->
  NoDup (map id allTweets) ->
  In tweet (firstn (Nat.min 75 (List.length allTweets)) allTweets) ->
  In tweet (fst (searchAllTweets now raw userMessage allTweets)) /\
  firstn (Nat.min 75 (List.length allTweets))
    (fst (searchAllTweets now raw userMessage allTweets))
  = firstn 75 allTweets.
Proof.
  intros _ Hsorted Hnd Hin.
  destruct (searchAllTweets_window_first now raw userMessage allTweets Hsorted Hnd)
    as [others Heq].
  assert (Hmin : firstn (Nat.min 75 (List.length allTweets)) allTweets
                 = firstn 75 allTweets).
  { destruct (Nat.le_ge_cases 75 (List.length allTweets)) as [H | H].
    - now rewrite Nat.min_l.
    - rewrite Nat.min_r by assumption. now rewrite !firstn_all2 by lia. }
  rewrite Heq. split.
  - apply in_or_app. left. now rewrite <- Hmin.
  - rewrite firstn_app.
    replace (Nat.min 75 (List.length allTweets))
      with (List.length (firstn 75 allTweets)) by apply length_firstn.
    now rewrite firstn_all, Nat.sub_diag, firstn_O, app_nil_r.
Qed.

(** ** Scores *)

Lemma prefix_nil (s : string) : String.prefix "" s = true.
Proof. now destruct s. Qed.

Lemma prefix_lower (p s : string) :
  String.prefix p s = true -> Regex.prefix_ci p s = true.
Proof.
  unfold Regex.prefix_ci. revert s.
  induction p as [| a p IH]; intros s; simpl; [intros _; apply prefix_nil|].
  destruct s as [| b s]; simpl; [discriminate|].
  destruct (ascii_dec a b) as [-> | Hne]; [|discriminate].
  intros H. destruct (ascii_dec _ _) as [_ | Hne]; [now apply IH | congruence].
Qed.

Lemma count_matches_nonneg (pat : string) (s : string) (skip : nat) :
  0 <= Regex.count_matches pat skip s.
Proof.
  revert skip. induction s as [| c s IH]; intros skip; cbn [Regex.count_matches].
  - destruct skip; [destruct (Regex.prefix_ci pat ""); lia | lia].
  - destruct skip as [| k]; [|apply IH].
    destruct (Regex.prefix_ci pat (String c s)).
    + match goal with
      | |- 0 <= 1 + ?n => assert (0 <= n) by apply IH; lia
      end.
    + apply IH.
Qed.

(** A text that includes the pattern has at least one match of it. *)
Lemma occurrences_includes (text pat : string) :
  JsString.includes text pat = true -> 1 <= Regex.occurrences text pat.
Proof.
  unfold Regex.occurrences.
  induction text as [| c s IH]; cbn [Regex.count_matches JsString.includes].
  - rewrite orb_false_r. unfold JsString.startsWith. intros H.
    now rewrite (prefix_lower _ _ H).
  - intros H. destruct (Regex.prefix_ci pat (String c s)) eqn:E.
    + match goal with
      | |- 1 <= 1 + ?n => assert (0 <= n) by apply count_matches_nonneg; lia
      end.
    + apply IH. apply orb_true_iff in H. destruct H as [H | H]; [|assumption].
      unfold JsString.startsWith in H. apply prefix_lower in H. congruence.
Qed.

Lemma termScore_nonneg (tweetText term : string) : 0 <= termScore tweetText term.
Proof.
  unfold termScore.
  destruct (JsString.includes tweetText (JsString.toLowerCase term)) eqn:E; [|lia].
  apply occurrences_includes in E.
  destruct (Regex.wordBoundaryTest tweetText (JsString.toLowerCase term)); lia.
Qed.

Lemma termLoop_ge (tweetText : string) (terms : list string) (init : Z) :
  init <= fold_left (fun score term => score + termScore tweetText term) terms init.
Proof.
  revert init. induction terms as [| t terms IH]; intros init; simpl; [lia|].
  pose proof (termScore_nonneg tweetText t).
  specialize (IH (init + termScore tweetText t)). lia.
Qed.

Lemma phraseLoop_ge (tweetText : string) (phrases : list string) (init : Z) :
  init <= fold_left
            (fun score phrase =>
               if JsString.includes tweetText phrase then score + 100 else score)
            phrases init.
Proof.
  revert init. induction phrases as [| p phrases IH]; intros init; simpl; [lia|].
  destruct (JsString.includes tweetText p).
  - specialize (IH (init + 100)). lia.
  - apply IH.
Qed.

Lemma phraseLoop_hit (tweetText : string) (phrases : list string) (init : Z)
    (phrase : string) :
  In phrase phrases -> JsString.includes tweetText phrase = true ->
  init + 100 <= fold_left
                  (fun score phrase =>
                     if JsString.includes tweetText phrase then score + 100 else score)
                  phrases init.
Proof.
  revert init. induction phrases as [| p phrases IH]; intros init; simpl; [intros []|].
  intros [-> | Hin] Hinc.
  - rewrite Hinc. apply phraseLoop_ge.
  - specialize (IH (if JsString.includes tweetText p then init + 100 else init) Hin Hinc).
    destruct (JsString.includes tweetText p); lia.
Qed.

Lemma matchScore_phrase (tweet : Tweet) (searchTerms : list string) (msg : string) :
  hasQuotedPhrase tweet msg -> 100 <= matchScore tweet searchTerms msg.
Proof.
  intros [phrase [Hin Hinc]]. unfold matchScore.
  etransitivity; [|apply termLoop_ge].
  unfold phraseScore.
  apply (phraseLoop_hit _ _ 0 (JsString.toLowerCase phrase)); [|assumption].
  now apply in_map.
Qed.

(** ** Raw scan *)

Lemma grepSearchJsonFile_unreadable (raw : RawStore) (terms : list string) (e : string) :
  readFile raw = Throw e ->
  grepSearchJsonFile raw terms
  = (JsSet.empty,
     [ReadFileSync; ConsoleError ("Node.js grep search failed: " ++ e)%string]).
Proof.
  intros H. unfold grepSearchJsonFile, grepTry. now rewrite H.
Qed.

Lemma scanLines_no_terms (lines : list string) : scanLines [] lines = JsSet.empty.
Proof.
  unfold scanLines. generalize (seq 0 (List.length lines)).
  intros l. induction l as [| i l IH]; simpl; [reflexivity | exact IH].
Qed.

Lemma grepSearchJsonFile_no_terms (raw : RawStore) :
  fst (grepSearchJsonFile raw []) = JsSet.empty.
Proof.
  unfold grepSearchJsonFile, grepTry. destruct raw as [content |]; simpl.
  - apply scanLines_no_terms.
  - reflexivity.
Qed.

(** C2 (amended). For every corpus, query and raw-match set, a record is a
    ranking candidate exactly when its boosted score, the relevance score
    plus 50 when its identifier is in the raw-match set, is strictly
    positive: the boost is added before the test.  The records that are
    sorted and cut to 150 are candidates, and a candidate whose relevance
    score alone is not positive is in the raw-match set. *)
Theorem candidate_iff_boosted_score_positive (now : Z) (grepMatches : JsSet.t)
    (userMessage : string) (allTweets : list Tweet) (tweet : Tweet) :
  let searchTerms := extractSearchTerms userMessage in
  let relevance := calculateRelevanceScore now tweet searchTerms userMessage in
  let boosted := if JsSet.has grepMatches (id tweet)
                 then (relevance + 50)%Q else relevance in
  (In tweet (map fst (searchResults now grepMatches searchTerms userMessage allTweets))
   <-> In tweet allTweets /\ (0 < boosted)%Q) /\
  (In tweet (topRelevantTweets now grepMatches userMessage allTweets) ->
   In tweet (map fst (searchResults now grepMatches searchTerms userMessage allTweets))) /\
  (In tweet (map fst (searchResults now grepMatches searchTerms userMessage allTweets)) ->
   ~ (0 < relevance)%Q -> JsSet.has grepMatches (id tweet) = true).
Proof.
  cbv zeta.
  assert (Hiff : In tweet (map fst (searchResults now grepMatches
                     (extractSearchTerms userMessage) userMessage allTweets))
                 <-> In tweet allTweets /\
                     (0 < boostedScore now grepMatches
                            (extractSearchTerms userMessage) userMessage tweet)%Q).
  { rewrite in_map_iff. split.
    - intros [[t s] [Heq Hin]]. simpl in Heq. subst t.
      apply searchResults_In in Hin. destruct Hin as [Hin [-> Hpos]]. tauto.
    - intros [Hin Hpos]. eexists (tweet, _). split; [reflexivity|].
      apply searchResults_In. split; [assumption|]. split; [reflexivity|assumption]. }
  split; [exact Hiff|]. split.
  - intros H. apply Hiff. now apply topRelevantTweets_candidates.
  - intros H Hrel. apply Hiff in H. destruct H as [_ Hpos].
    unfold boostedScore in Hpos.
    destruct (JsSet.has grepMatches (id tweet)); [reflexivity | contradiction].
Qed.

(** C9. For every term set, if reading the raw store throws, the raw scan
    returns the empty match set to its caller after logging the error, and
    the query completes with the relevance score of every record left
    without boost. *)
Theorem raw_scan_failure_is_absorbed (now : Z) (raw : RawStore)
    (searchTerms : list string) (e : string) :
  readFile raw = Throw e ->
  grepSearchJsonFile raw searchTerms
  = (JsSet.empty,
     [ReadFileSync; ConsoleError ("Node.js grep search failed: " ++ e)%string]) /\
  forall userMessage allTweets,
    (forall tweet,
        boostedScore now (fst (grepSearchJsonFile raw (extractSearchTerms userMessage)))
          (extractSearchTerms userMessage) userMessage tweet
        = calculateRelevanceScore now tweet (extractSearchTerms userMessage) userMessage) /\
    exists final,
      searchAllTweets now raw userMessage allTweets
      = (final,
         [ReadFileSync; ConsoleError ("Node.js grep search failed: " ++ e)%string]) /\
      final = firstn 200
                (Array_sort byTimeDesc
                   (combinedTweets now JsSet.empty userMessage allTweets)).
Proof.
  intros Hread. split; [now apply grepSearchJsonFile_unreadable|].
  intros userMessage allTweets. split.
  - intros tweet. now rewrite (grepSearchJsonFile_unreadable _ _ _ Hread).
  - eexists. split; [|reflexivity]. unfold searchAllTweets.
    now rewrite (grepSearchJsonFile_unreadable _ _ _ Hread).
Qed.

Lemma grepSearchJsonFile_reads (raw : RawStore) (terms : list string) :
  exists out, snd (grepSearchJsonFile raw terms) = ReadFileSync :: out.
Proof.
  unfold grepSearchJsonFile. destruct (grepTry raw terms) as [[found out] | e].
  - now exists out.
  - eexists. reflexivity.
Qed.

(** C8. For every query, raw store and clock, the context built for an
    empty corpus is exactly the fixed message, and the trace is empty: the
    raw store is not read and nothing is logged, so the search (scoring,
    raw scan, ranking, deduplication) is not run.  For a corpus that is not
    empty the search runs: the trace starts with the read of the raw
    store, and the context is not the fixed message. *)
Theorem empty_corpus_short_circuit (toLocaleDateString : Z -> string)
    (handle : string) (now : Z) (raw : RawStore) (userMessage : string) :
  buildSmartContext toLocaleDateString handle now raw userMessage []
  = ("No tweets available in memory."%string, []) /\
  forall (tweet : Tweet) (others : list Tweet),
    fst (buildSmartContext toLocaleDateString handle now raw userMessage
           (tweet :: others))
    <> "No tweets available in memory."%string /\
    exists out,
      snd (buildSmartContext toLocaleDateString handle now raw userMessage
             (tweet :: others))
      = ReadFileSync :: out.
Proof.
  split; [reflexivity|]. intros tweet others.
  unfold buildSmartContext, searchAllTweets.
  destruct (grepSearchJsonFile_reads raw (extractSearchTerms userMessage))
    as [out Hout].
  destruct (grepSearchJsonFile raw (extractSearchTerms userMessage))
    as [grepMatches out'].
  cbn in Hout. subst out'. split.
  - cbn. discriminate.
  - exists out. reflexivity.
Qed.

(** ** The cached corpus *)

Section ServiceFacts.
Variable toLocaleDateString : Z -> string.
Variable JSON_parse : string -> option (list JsonTweet).
Variable Date_parse : string -> Z.

Lemma loadJsonData_loaded (w : World) (this : AIService) :
  isLoaded this = true -> loadJsonData toLocaleDateString JSON_parse Date_parse w this = (tt, this, []).
Proof.
  intros H. unfold loadJsonData, bind, getThis. cbn. now rewrite H.
Qed.

(** The three read operations that copy leave the object as it is. *)
Lemma getAllTweets_frame (w : World) (this : AIService) :
  isLoaded this = true ->
  after (getAllTweets toLocaleDateString JSON_parse Date_parse w this) = this.
Proof.
  intros H. unfold getAllTweets, bind.
  now rewrite (loadJsonData_loaded w this H).
Qed.

Lemma getTweetsByKeyword_frame (w : World) (keyword : string) (this : AIService) :
  isLoaded this = true ->
  after (getTweetsByKeyword toLocaleDateString JSON_parse Date_parse w keyword this)
  = this.
Proof.
  intros H. unfold getTweetsByKeyword, bind.
  now rewrite (loadJsonData_loaded w this H).
Qed.

Lemma getRecentTweets_frame (w : World) (count : Z) (this : AIService) :
  isLoaded this = true ->
  after (getRecentTweets toLocaleDateString JSON_parse Date_parse w count this) = this.
Proof.
  intros H. unfold getRecentTweets, bind.
  now rewrite (loadJsonData_loaded w this H).
Qed.

Lemma contextForResponse_frame (w : World) (msg : string)
    (given : option (list Tweet)) (this : AIService) :
  isLoaded this = true ->
  after (contextForResponse toLocaleDateString JSON_parse Date_parse w msg given this)
  = this.
Proof.
  intros H. unfold contextForResponse, bind.
  rewrite (loadJsonData_loaded w this H). cbn.
  now destruct (buildSmartContext _ _ _ _ _ _).
Qed.

(** The statistics sort the array of the object itself. *)
Lemma getTweetStats_corpus (w : World) (this : AIService) :
  isLoaded this = true ->
  tweets (after (getTweetStats toLocaleDateString JSON_parse Date_parse w this))
  = Array_sort byTimeAsc (tweets this).
Proof.
  intros H. unfold getTweetStats, bind.
  rewrite (loadJsonData_loaded w this H). cbn.
  destruct (tweets this) eqn:E; cbn; [exact E | now rewrite E].
Qed.

Lemma context_of_nonempty (handle : string) (now : Z) (raw : RawStore)
    (msg : string) (t : Tweet) (l : list Tweet) :
  fst (buildSmartContext toLocaleDateString handle now raw msg (t :: l))
  <> emptyCorpusMessage.
Proof.
  unfold buildSmartContext.
  destruct (searchAllTweets _ _ _ _) as [relevant out]. cbn. discriminate.
Qed.

(** C1. The claim holds of the operations that copy ([searchAllTweets]
    works on its argument, [getTweetsByKeyword] and [getRecentTweets]
    return new arrays), and fails for [getTweetStats]: on a loaded corpus
    of two records, newest first, the call leaves the cached array
    oldest first. *)
Theorem getTweetStats_reorders_corpus (w : World) :
  tweets loadedService = [newerTweet; olderTweet] /\
  tweets (after (getTweetStats toLocaleDateString JSON_parse Date_parse w loadedService))
  = [olderTweet; newerTweet] /\
  tweets (after (getTweetStats toLocaleDateString JSON_parse Date_parse w loadedService))
  <> tweets loadedService.
Proof.
  rewrite getTweetStats_corpus by reflexivity.
  split; [reflexivity|]. split; [reflexivity|]. discriminate.
Qed.

(** C10. If the corpus is not loaded and reading or parsing the export
    file fails, the loader installs the fallback corpus of exactly two
    records and marks the loading complete: [getAllTweets] returns that
    non-empty list, and the context built from the cached corpus is never
    the empty-corpus message. *)
Theorem load_failure_installs_fallback (w : World) (this : AIService) :
  isLoaded this = false ->
  (rawStore w = None \/
   exists content, rawStore w = Some content /\ JSON_parse content = None) ->
  let r := getAllTweets toLocaleDateString JSON_parse Date_parse w this in
  result r = getFallbackTweets (mainHandle this) (clock w) /\
  List.length (result r) = 2%nat /\
  tweets (after r) = result r /\
  isLoaded (after r) = true /\
  (forall userMessage,
      result (contextForResponse toLocaleDateString JSON_parse Date_parse w
                userMessage None this)
      <> emptyCorpusMessage) /\
  (forall w' userMessage,
      result (contextForResponse toLocaleDateString JSON_parse Date_parse w'
                userMessage None (after r))
      <> emptyCorpusMessage).
Proof.
  intros Hfresh Hfail.
  assert (Hthrow : exists e, loadTry JSON_parse Date_parse this (rawStore w) = Throw e).
  { unfold loadTry. destruct Hfail as [-> | [content [-> Hparse]]]; cbn.
    - eexists. reflexivity.
    - rewrite Hparse. eexists. reflexivity. }
  destruct Hthrow as [e Hthrow].
  assert (Hload : loadJsonData toLocaleDateString JSON_parse Date_parse w this
                  = (tt,
                     set_isLoaded
                       (set_tweets this (getFallbackTweets (mainHandle this) (clock w)))
                       true,
                     [ConsoleLog "Loading Twitter JSON export file..."; ReadFileAsync;
                      ConsoleError ("Error loading JSON file '" ++ jsonFilePath this
                                    ++ "': " ++ e)%string;
                      ConsoleError ("Make sure the file 'twitter-UserTweets-"
                                    ++ mainHandle this
                                    ++ ".json' exists in the project root.")%string])).
  { unfold loadJsonData, bind, getThis. cbn.
    rewrite Hfresh, Hthrow. reflexivity. }
  cbv zeta. unfold getAllTweets, contextForResponse, bind.
  rewrite Hload. split; [reflexivity|]. split; [reflexivity|].
  split; [reflexivity|]. split; [reflexivity|]. split.
  - intros userMessage. cbn [getThis].
    set (c := buildSmartContext _ _ _ _ _ _).
    assert (Hc : fst c <> emptyCorpusMessage) by apply context_of_nonempty.
    destruct c as [context out]. exact Hc.
  - intros w' userMessage. rewrite loadJsonData_loaded by reflexivity.
    cbn [getThis].
    set (c := buildSmartContext _ _ _ _ _ _).
    assert (Hc : fst c <> emptyCorpusMessage) by apply context_of_nonempty.
    destruct c as [context out]. exact Hc.
Qed.

End ServiceFacts.

(** ** Term extraction *)

Lemma append_nil_r (s : string) : (s ++ "")%string = s.
Proof. induction s as [| c s IH]; simpl; [reflexivity | now rewrite IH]. Qed.

Lemma snoc_append (cur : string) (c : ascii) (s : string) :
  (JsString.snoc cur c ++ s)%string = (cur ++ String c s)%string.
Proof.
  unfold JsString.snoc. induction cur as [| d cur IH]; simpl;
    [reflexivity | now rewrite IH].
Qed.

Lemma flush_filter (cur : string) : Regex.flush cur = filter nonEmpty [cur].
Proof. now destruct cur. Qed.

(** The scanner of the word pattern yields the maximal runs of word
    characters. *)
Lemma words_aux_pieces (s cur : string) :
  Regex.words_aux cur s
  = filter nonEmpty
      (match pieces JsString.isWordChar s with
       | p :: ps => (cur ++ p)%string :: ps
       | [] => [cur]
       end).
Proof.
  revert cur. induction s as [| c s IH]; intros cur;
    cbn [Regex.words_aux pieces].
  - rewrite append_nil_r. apply flush_filter.
  - destruct (JsString.isWordChar c).
    + rewrite IH. destruct (pieces JsString.isWordChar s) as [| p ps].
      * reflexivity.
      * now rewrite snoc_append.
    + rewrite IH, flush_filter, append_nil_r.
      destruct (pieces JsString.isWordChar s) as [| p ps]; cbn [filter].
      * destruct (nonEmpty cur); reflexivity.
      * destruct (nonEmpty cur); reflexivity.
Qed.

Lemma match_words_runs (s : string) :
  Regex.match_words s = runsOf JsString.isWordChar s.
Proof.
  unfold Regex.match_words, runsOf. rewrite words_aux_pieces.
  now destruct (pieces JsString.isWordChar s).
Qed.

Lemma filter_filter {A : Type} (f g : A -> bool) (l : list A) :
  filter f (filter g l) = filter (fun x => g x && f x) l.
Proof.
  induction l as [| x l IH]; simpl; [reflexivity|].
  destruct (g x); simpl; [destruct (f x)|]; now rewrite IH.
Qed.

(** Building a set from an array keeps the first occurrence of each
    element. *)
Lemma fold_add_keepFirst (l : list string) (seen : JsSet.t) :
  fold_left JsSet.add l seen
  = seen ++ filter (fun y => negb (JsSet.has seen y)) (keepFirst l).
Proof.
  revert seen. induction l as [| x l IH]; intros seen; cbn [fold_left keepFirst filter].
  - now rewrite app_nil_r.
  - rewrite IH. unfold JsSet.add. destruct (JsSet.has seen x) eqn:Hx; cbn [negb].
    + f_equal. rewrite filter_filter. apply filter_ext. intros y.
      destruct (String.eqb_spec y x) as [-> | _]; [now rewrite Hx | reflexivity].
    + rewrite <- app_assoc. cbn [app]. do 2 f_equal.
      rewrite filter_filter. apply filter_ext. intros y.
      rewrite has_app. cbn. rewrite orb_false_r, negb_orb. apply andb_comm.
Qed.

Lemma ofArray_keepFirst (l : list string) : JsSet.ofArray l = keepFirst l.
Proof.
  unfold JsSet.ofArray. rewrite fold_add_keepFirst. cbn [JsSet.empty app].
  rewrite <- (filter_ext (fun _ => true)) by reflexivity.
  induction (keepFirst l) as [| y k IH]; simpl; [reflexivity | now rewrite IH].
Qed.

(** C6 (amended). For every query, the extracted term set is: the quoted
    phrases of the lowercased query, then the expansion terms of every rule
    that fires, then the word tokens of the whole lowercased query, quoted
    text included (the maximal runs of letters, digits and underscores),
    that are longer than 2 and are not stop words; concatenated in that
    order and deduplicated keeping the first occurrence of each term. *)
Theorem extractSearchTerms_characterised (userMessage : string) :
  let message := JsString.toLowerCase userMessage in
  extractSearchTerms userMessage
  = keepFirst
      (Regex.match_quoted message ++ expandedTerms message
       ++ filter keepWord (runsOf JsString.isWordChar message)).
Proof.
  cbv zeta. unfold extractSearchTerms.
  now rewrite ofArray_keepFirst, match_words_runs.
Qed.

(** ** Queries made of stop words *)

Lemma includes_cons (c : ascii) (s p : string) :
  JsString.includes s p = true -> JsString.includes (String c s) p = true.
Proof. intros H. cbn [JsString.includes]. rewrite H. apply orb_true_r. Qed.

(** A prefix made of word characters does not reach over a separator. *)
Lemma prefix_sep (p x y : string) (c : ascii) :
  JsString.allWordChars p = true -> JsString.isWordChar c = false ->
  String.prefix p (x ++ String c y)%string = true -> String.prefix p x = true.
Proof.
  unfold JsString.allWordChars. revert x.
  induction p as [| a p IH]; intros x Hp Hc; [intros _; apply prefix_nil|].
  cbn in Hp. apply andb_true_iff in Hp. destruct Hp as [Ha Hp].
  destruct x as [| d x]; cbn.
  - destruct (ascii_dec a c) as [-> | _]; [congruence | discriminate].
  - destruct (ascii_dec a d) as [_ | _]; [now apply IH | discriminate].
Qed.

Lemma includes_sep (p cur s : string) (c : ascii) :
  p <> ""%string -> JsString.allWordChars p = true -> JsString.isWordChar c = false ->
  JsString.includes (cur ++ String c s)%string p = true ->
  JsString.includes cur p = true \/ JsString.includes s p = true.
Proof.
  intros Hne Hp Hc. induction cur as [| d cur IH]; cbn [append JsString.includes].
  - intros H. apply orb_true_iff in H. destruct H as [H | H]; [|now right].
    exfalso. unfold JsString.startsWith in H.
    apply (prefix_sep p "" s c Hp Hc) in H.
    destruct p; [congruence | discriminate].
  - intros H. apply orb_true_iff in H. destruct H as [H | H].
    + left. unfold JsString.startsWith in *.
      apply (prefix_sep p (String d cur) s c Hp Hc) in H. now rewrite H.
    + destruct (IH H) as [H' | H']; [left | now right].
      rewrite H'. apply orb_true_r.
Qed.

(** A run of word characters that the text includes lies inside one of
    its word tokens. *)
Lemma words_cover (p s cur : string) :
  p <> ""%string -> JsString.allWordChars p = true ->
  JsString.includes (cur ++ s)%string p = true ->
  exists w, In w (Regex.words_aux cur s) /\ JsString.includes w p = true.
Proof.
  intros Hne Hp. revert cur. induction s as [| c s IH]; intros cur H;
    cbn [Regex.words_aux].
  - rewrite append_nil_r in H. exists cur. split; [|assumption].
    destruct cur; [|now left].
    cbn in H. rewrite orb_false_r in H. destruct p; [congruence | discriminate].
  - destruct (JsString.isWordChar c) eqn:Hc.
    + apply IH. now rewrite snoc_append.
    + apply (includes_sep p cur s c Hne Hp Hc) in H. destruct H as [H | H].
      * exists cur. split; [|assumption]. apply in_or_app. left.
        destruct cur; [|now left].
        cbn in H. rewrite orb_false_r in H. destruct p; [congruence | discriminate].
      * destruct (IH ""%string H) as [w [Hw Hinc]]. exists w.
        split; [|assumption]. apply in_or_app. now right.
Qed.

Lemma no_trigger (message trigger : string) :
  trigger <> ""%string -> JsString.allWordChars trigger = true ->
  (forall w, In w (Regex.match_words message) -> JsString.includes w trigger = false) ->
  JsString.includes message trigger = false.
Proof.
  intros Hne Hall Hwords. destruct (JsString.includes message trigger) eqn:E;
    [|reflexivity].
  destruct (words_cover trigger message ""%string Hne Hall E) as [w [Hw Hinc]].
  rewrite (Hwords w Hw) in Hinc. discriminate.
Qed.

(** No stop word includes a trigger of the expansion rules, except that
    the stop word [when] is itself a trigger. *)
Lemma stopWords_without_trigger (w trigger : string) :
  JsSet.has stopWords w = true -> In trigger triggers ->
  JsString.includes w trigger = true -> w = "when"%string.
Proof.
  intros Hw Ht Hinc. apply has_In in Hw.
  assert (Hall : forallb
                   (fun w => forallb
                               (fun t => negb (JsString.includes w t)
                                         || String.eqb w "when")
                               triggers)
                   stopWords = true) by (vm_compute; reflexivity).
  rewrite forallb_forall in Hall. specialize (Hall w Hw).
  rewrite forallb_forall in Hall. specialize (Hall trigger Ht).
  rewrite Hinc in Hall. cbn [negb orb] in Hall.
  apply String.eqb_eq. exact Hall.
Qed.

Lemma isQuote_lower (c : ascii) :
  JsString.isQuote (JsString.toLowerChar c) = JsString.isQuote c.
Proof. destruct c as [[] [] [] [] [] [] [] []]; reflexivity. Qed.

Lemma includes_quote_cons (c : ascii) (s : string) :
  JsString.includes (String c s) (String JsString.dquote "") = false <->
  JsString.isQuote c = false /\
  JsString.includes s (String JsString.dquote "") = false.
Proof.
  cbn [JsString.includes]. unfold JsString.startsWith, JsString.isQuote.
  cbn [String.prefix]. rewrite orb_false_iff.
  destruct (ascii_dec JsString.dquote c) as [<- | Hne].
  - rewrite prefix_nil, Ascii.eqb_refl. split; intros [H _]; discriminate.
  - assert (Ascii.eqb c JsString.dquote = false) by (apply Ascii.eqb_neq; congruence).
    tauto.
Qed.

Lemma lower_no_quote (s : string) :
  JsString.includes s (String JsString.dquote "") = false ->
  JsString.includes (JsString.toLowerCase s) (String JsString.dquote "") = false.
Proof.
  induction s as [| c s IH]; [intros _; reflexivity|].
  cbn [JsString.toLowerCase]. rewrite !includes_quote_cons, isQuote_lower. tauto.
Qed.

Lemma quoted_no_quote (s : string) (st : option string) :
  JsString.includes s (String JsString.dquote "") = false ->
  Regex.quoted_aux st s = [].
Proof.
  revert st. induction s as [| c s IH]; intros st; [reflexivity|].
  rewrite includes_quote_cons. intros [Hc Hs]. cbn [Regex.quoted_aux].
  rewrite Hc. destruct st; now apply IH.
Qed.

Lemma expandedTerms_none (message : string) :
  (forall trigger, In trigger triggers -> JsString.includes message trigger = false) ->
  expandedTerms message = [].
Proof.
  intros H. unfold expandedTerms.
  rewrite !H by (cbn; tauto). reflexivity.
Qed.

Lemma filter_none {A : Type} (f : A -> bool) (l : list A) :
  (forall x, In x l -> f x = false) -> filter f l = [].
Proof.
  induction l as [| x l IH]; intros H; simpl; [reflexivity|].
  rewrite (H x (or_introl eq_refl)). apply IH. intros y Hy. apply H. now right.
Qed.

Lemma stop_query_terms (userMessage : string) :
  onlyStopWords userMessage ->
  ~ In "when"%string (Regex.match_words (JsString.toLowerCase userMessage)) ->
  extractSearchTerms userMessage = [].
Proof.
  intros [Hquote Hstop] Hwhen. rewrite Forall_forall in Hstop.
  unfold extractSearchTerms.
  unfold Regex.match_quoted at 1. rewrite quoted_no_quote by now apply lower_no_quote.
  rewrite expandedTerms_none, filter_none; [reflexivity | |].
  - intros w Hw. unfold keepWord. rewrite (Hstop w Hw). apply andb_false_r.
  - intros trigger Ht. apply no_trigger.
    + intros ->. cbn in Ht. intuition discriminate.
    + cbn in Ht.
      repeat (destruct Ht as [<- | Ht]; [reflexivity|]). destruct Ht.
    + intros w Hw. destruct (JsString.includes w trigger) eqn:E; [|reflexivity].
      exfalso. apply Hwhen.
      now rewrite <- (stopWords_without_trigger w trigger (Hstop w Hw) Ht E).
Qed.

(** ** The assembly without search terms *)

Lemma relevance_without_terms (now : Z) (tweet : Tweet) (userMessage : string) :
  Regex.match_quoted userMessage = [] ->
  (calculateRelevanceScore now tweet [] userMessage == bonus now tweet)%Q.
Proof.
  intros H. unfold calculateRelevanceScore, matchScore, phraseScore, bonus.
  rewrite H. cbn [map fold_left]. change (inject_Z 0) with 0%Q.
  now rewrite Qplus_0_l.
Qed.

(** Records that are already in the head, or already seen, add nothing. *)
Lemma dedupFrom_absorb (l1 l2 : list Tweet) (seen : JsSet.t) :
  (forall t, In t l2 -> In t l1 \/ JsSet.has seen (id t) = true) ->
  dedupFrom seen (l1 ++ l2) = dedupFrom seen l1.
Proof.
  revert seen. induction l1 as [| x l1 IH]; intros seen H; cbn [app dedupFrom].
  - induction l2 as [| y l2 IH2]; [reflexivity|]. cbn [dedupFrom].
    destruct (H y (or_introl eq_refl)) as [[] | Hy]. rewrite Hy.
    apply IH2. intros t Ht. apply H. now right.
  - destruct (JsSet.has seen (id x)) eqn:Hx.
    + apply IH. intros t Ht. destruct (H t Ht) as [[<- | Hin] | Hs]; auto.
    + f_equal. apply IH. intros t Ht. rewrite has_add.
      destruct (H t Ht) as [[<- | Hin] | Hs].
      * right. rewrite String.eqb_refl. apply orb_true_r.
      * now left.
      * right. now rewrite Hs.
Qed.

(** C7 (amended). For every query that consists solely of stop words, has
    no double quote and does not contain the word [when], the extracted
    term set is empty.  For such a query and every corpus, every selected
    record is among the first 75 records or has a strictly positive
    engagement-plus-recency bonus; when no record after the first 75 has
    a positive bonus, the assembled set is the recency-window-only
    result. *)
Theorem stop_word_query_selection (userMessage : string) :
  onlyStopWords userMessage ->
  ~ In "when"%string (Regex.match_words (JsString.toLowerCase userMessage)) ->
  extractSearchTerms userMessage = [] /\
  forall (now : Z) (raw : RawStore) (allTweets : list Tweet),
    (forall tweet,
        In tweet (fst (searchAllTweets now raw userMessage allTweets)) ->
        In tweet (firstn 75 allTweets) \/ (0 < bonus now tweet)%Q) /\
    ((forall tweet, In tweet (skipn 75 allTweets) -> ~ (0 < bonus now tweet)%Q) ->
     fst (searchAllTweets now raw userMessage allTweets) = recencyWindowOnly allTweets).
Proof.
  intros Hstop Hwhen.
  pose proof (stop_query_terms userMessage Hstop Hwhen) as Hterms.
  split; [exact Hterms|]. intros now raw allTweets.
  assert (Hquoted : Regex.match_quoted userMessage = []).
  { unfold Regex.match_quoted. apply quoted_no_quote. apply Hstop. }
  assert (Htop : forall t,
             In t (topRelevantTweets now JsSet.empty userMessage allTweets) ->
             In t allTweets /\ (0 < bonus now t)%Q).
  { intros t Ht. apply topRelevantTweets_candidates in Ht.
    destruct Ht as [Hin Hpos]. split; [assumption|].
    unfold boostedScore in Hpos. cbn [JsSet.has JsSet.empty existsb] in Hpos.
    rewrite Hterms in Hpos.
    now rewrite (relevance_without_terms now t userMessage Hquoted) in Hpos. }
  rewrite searchAllTweets_fst, Hterms, grepSearchJsonFile_no_terms.
  unfold combinedTweets. rewrite deduplicateTweets_eq. split.
  - intros tweet Hin.
    apply In_firstn, Array_sort_In, dedupFrom_In in Hin. destruct Hin as [Hin _].
    apply in_app_or in Hin. destruct Hin as [Hin | Hin]; [now left | right].
    now apply Htop.
  - intros Hold. unfold recencyWindowOnly. rewrite deduplicateTweets_eq.
    rewrite dedupFrom_absorb; [reflexivity|].
    intros t Ht. left. apply Htop in Ht. destruct Ht as [Hin Hpos].
    rewrite <- (firstn_skipn 75 allTweets) in Hin. apply in_app_or in Hin.
    destruct Hin as [Hin | Hin]; [assumption|].
    exfalso. exact (Hold t Hin Hpos).
Qed.

(** ** The claims on sample inputs *)

Lemma not_In_by_id (t : Tweet) (l : list Tweet) :
  JsSet.has (map id l) (id t) = false -> ~ In t l.
Proof.
  intros H Hin. apply (in_map id) in Hin. apply has_In in Hin. congruence.
Qed.

(** A record whose relevance score is zero is a ranking candidate when the
    raw scan finds its identifier. *)
Lemma raw_match_makes_zero_score_candidate :
  let searchTerms := extractSearchTerms "ninja" in
  let grepMatches := fst (grepSearchJsonFile sampleRaw searchTerms) in
  In silentTweet
    (map fst (searchResults sampleNow grepMatches searchTerms "ninja" [silentTweet])) /\
  In silentTweet (topRelevantTweets sampleNow grepMatches "ninja" [silentTweet]) /\
  ~ (0 < calculateRelevanceScore sampleNow silentTweet searchTerms "ninja")%Q.
Proof.
  cbv zeta. split; [|split].
  - vm_compute. left. reflexivity.
  - vm_compute. left. reflexivity.
  - intros H. vm_compute in H. discriminate H.
Qed.


(** The words inside a quoted phrase are search terms of their own. *)
Lemma extractSearchTerms_differs_from_specified :
  extractSearchTerms phraseQuery = ["foo bar"; "foo"; "bar"]%string /\
  specifiedTermSet phraseQuery = ["foo bar"]%string /\
  extractSearchTerms phraseQuery <> specifiedTermSet phraseQuery.
Proof.
  split; [reflexivity|]. split; [reflexivity|]. vm_compute. discriminate.
Qed.

(** The stop word [when] fires an expansion rule, and with an empty term
    set a record outside the recency window is selected for its
    engagement. *)
Lemma stop_word_query_not_window_only :
  (onlyStopWords "when" /\ extractSearchTerms "when" <> []) /\
  (onlyStopWords "the and or" /\
   extractSearchTerms "the and or" = [] /\
   In (likedTweet 75) (fst (searchAllTweets sampleNow None "the and or" likedCorpus)) /\
   ~ In (likedTweet 75) (firstn 75 likedCorpus) /\
   fst (searchAllTweets sampleNow None "the and or" likedCorpus)
   <> recencyWindowOnly likedCorpus).
Proof.
  split; [split|split; [|split; [|split; [|split]]]].
  - split; [reflexivity | repeat constructor].
  - vm_compute. discriminate.
  - split; [reflexivity | repeat constructor].
  - reflexivity.
  - apply (nth_error_In _ 75). vm_compute. reflexivity.
  - apply not_In_by_id. vm_compute. reflexivity.
  - intros H. apply (f_equal (@List.length Tweet)) in H. vm_compute in H.
    discriminate H.
Qed.

Lemma recency_window_survives_witness :
  In newerTweet
    (fst (searchAllTweets sampleNow sampleRaw "ninja" [newerTweet; olderTweet])) /\
  firstn (Nat.min 75 (List.length [newerTweet; olderTweet]))
    (fst (searchAllTweets sampleNow sampleRaw "ninja" [newerTweet; olderTweet]))
  = firstn 75 [newerTweet; olderTweet].
Proof.
  apply (recency_window_survives sampleNow sampleRaw "ninja"
           [newerTweet; olderTweet] newerTweet).
  - discriminate.
  - repeat constructor. unfold newerOrEqual. simpl. lia.
  - simpl. repeat constructor; simpl; intuition discriminate.
  - simpl. left. reflexivity.
Defined.

Lemma stop_word_query_selection_witness :
  extractSearchTerms "the and or" = [] /\
  fst (searchAllTweets sampleNow None "the and or" [newerTweet; olderTweet])
  = recencyWindowOnly [newerTweet; olderTweet].
Proof.
  destruct (stop_word_query_selection "the and or") as [Hterms Hsel].
  - split; [reflexivity | repeat constructor].
  - vm_compute. intuition discriminate.
  - split; [exact Hterms|].
    apply (proj2 (Hsel sampleNow None [newerTweet; olderTweet])).
    simpl. intros tweet [].
Defined.

Lemma raw_scan_failure_is_absorbed_witness :
  grepSearchJsonFile None ["ninja"%string]
  = (JsSet.empty,
     [ReadFileSync;
      ConsoleError "Node.js grep search failed: ENOENT: no such file or directory"]) /\
  boostedScore sampleNow (fst (grepSearchJsonFile None (extractSearchTerms "ninja")))
    (extractSearchTerms "ninja") "ninja" silentTweet
  = calculateRelevanceScore sampleNow silentTweet (extractSearchTerms "ninja") "ninja".
Proof.
  destruct (raw_scan_failure_is_absorbed sampleNow None ["ninja"%string]
              "ENOENT: no such file or directory" eq_refl) as [Hgrep Hquery].
  split; [exact Hgrep|].
  exact (proj1 (Hquery "ninja"%string [silentTweet]) silentTweet).
Defined.

Lemma load_failure_installs_fallback_witness :
  let r := getAllTweets JsString.ofZ (fun _ => None) (fun _ => 0)
             (mkWorld None sampleNow) freshService in
  result r = getFallbackTweets "tekkusai" sampleNow /\
  List.length (result r) = 2%nat /\
  tweets (after r) = result r /\
  isLoaded (after r) = true /\
  result (contextForResponse JsString.ofZ (fun _ => None) (fun _ => 0)
            (mkWorld None sampleNow) "ninja" None freshService)
  <> emptyCorpusMessage.
Proof.
  destruct (load_failure_installs_fallback JsString.ofZ (fun _ => None) (fun _ => 0)
              (mkWorld None sampleNow) freshService eq_refl (or_introl eq_refl))
    as [H1 [H2 [H3 [H4 [H5 _]]]]].
  cbv zeta. split; [exact H1|]. split; [exact H2|]. split; [exact H3|].
  split; [exact H4|]. exact (H5 "ninja"%string).
Defined.

(** * Further properties *)

(** ** Sorted results *)

Section SortOrder.
Context {A : Type}.
Variable compareFn : A -> A -> Q.

(** The comparator is consistent: of two elements, one may precede the
    other. *)
Hypothesis compare_total :
  forall a b, ~ (compareFn a b <= 0)%Q -> (compareFn b a <= 0)%Q.

Lemma insert_sorted (x : A) (l : list A) :
  Sorted (fun a b => (compareFn a b <= 0)%Q) l ->
  Sorted (fun a b => (compareFn a b <= 0)%Q) (insert compareFn x l).
Proof.
  induction 1 as [| y l Hs IH Hhd]; cbn [insert].
  - repeat constructor.
  - destruct (Qle_bool (compareFn x y) 0) eqn:E.
    + apply Qle_bool_iff in E. repeat constructor; assumption.
    + constructor; [exact IH|].
      assert (Hyx : (compareFn y x <= 0)%Q).
      { apply compare_total. intros Hle. apply Qle_bool_iff in Hle. congruence. }
      destruct l as [| z l]; cbn [insert].
      * now constructor.
      * destruct (Qle_bool (compareFn x z) 0); constructor; [assumption|].
        now inversion Hhd.
Qed.

Lemma Array_sort_sorted (l : list A) :
  Sorted (fun a b => (compareFn a b <= 0)%Q) (Array_sort compareFn l).
Proof.
  induction l as [| x l IH]; cbn [Array_sort fold_right].
  - constructor.
  - apply insert_sorted. exact IH.
Qed.

Lemma Array_sort_fixed (l : list A) :
  StronglySorted (fun a b => (compareFn a b <= 0)%Q) l ->
  Array_sort compareFn l = l.
Proof.
  intros H. rewrite <- (app_nil_r l) at 1.
  rewrite Array_sort_prefix; [apply app_nil_r | exact H | intros a b _ []].
Qed.
End SortOrder.

Lemma byTimeAsc_le (a b : Tweet) :
  (byTimeAsc a b <= 0)%Q <-> timestamp a <= timestamp b.
Proof.
  unfold byTimeAsc. change 0%Q with (inject_Z 0). rewrite <- Zle_Qle. lia.
Qed.

Lemma Sorted_weaken {A : Type} (R R' : A -> A -> Prop) (l : list A) :
  (forall a b, R a b -> R' a b) -> Sorted R l -> Sorted R' l.
Proof.
  intros Himp. induction 1 as [| x l Hs IH Hhd]; constructor.
  - exact IH.
  - destruct Hhd; constructor. now apply Himp.
Qed.

Lemma sort_byTimeDesc_newestFirst (l : list Tweet) :
  newestFirst (Array_sort byTimeDesc l).
Proof.
  unfold newestFirst.
  apply (Sorted_weaken (fun a b => (byTimeDesc a b <= 0)%Q)).
  - intros a b. apply byTimeDesc_le.
  - apply Array_sort_sorted. intros a b H. apply byTimeDesc_le.
    rewrite byTimeDesc_le in H. lia.
Qed.

Lemma sort_byTimeAsc_oldestFirst (l : list Tweet) :
  StronglySorted olderOrEqual (Array_sort byTimeAsc l).
Proof.
  apply Sorted_StronglySorted.
  - intros a b c. unfold olderOrEqual. lia.
  - apply (Sorted_weaken (fun a b => (byTimeAsc a b <= 0)%Q)).
    + intros a b. apply byTimeAsc_le.
    + apply Array_sort_sorted. intros a b H. apply byTimeAsc_le.
      rewrite byTimeAsc_le in H. lia.
Qed.

Lemma Sorted_firstn {A : Type} (R : A -> A -> Prop) (n : nat) (l : list A) :
  Sorted R l -> Sorted R (firstn n l).
Proof.
  intros H. revert n. induction H as [| x l Hs IH Hhd]; intros n.
  - rewrite firstn_nil. constructor.
  - destruct n as [| n]; cbn [firstn]; [constructor|].
    constructor; [apply IH|].
    destruct Hhd; destruct n; cbn [firstn]; constructor. assumption.
Qed.

(** ** Loader and cache *)

Lemma toLowerCase_app (a b : string) :
  JsString.toLowerCase (a ++ b)%string
  = (JsString.toLowerCase a ++ JsString.toLowerCase b)%string.
Proof. induction a as [| c a IH]; cbn; [reflexivity | now rewrite IH]. Qed.

Lemma string_app_assoc (a b c : string) :
  (a ++ (b ++ c))%string = ((a ++ b) ++ c)%string.
Proof. induction a as [| x a IH]; cbn; [reflexivity | now rewrite IH]. Qed.

Lemma prefix_app (p s : string) : String.prefix p (p ++ s)%string = true.
Proof.
  induction p as [| c p IH]; cbn; [apply prefix_nil|].
  destruct (ascii_dec c c); [exact IH | congruence].
Qed.

Lemma length_filter_le {A : Type} (f : A -> bool) (l : list A) :
  (List.length (filter f l) <= List.length l)%nat.
Proof.
  induction l as [| x l IH]; cbn; [lia|]. destruct (f x); cbn; lia.
Qed.

Section LoaderFacts.
Variable toLocaleDateString : Z -> string.
Variable JSON_parse : string -> option (list JsonTweet).
Variable Date_parse : string -> Z.

Lemma loadJsonData_after (w : World) (this : AIService) :
  after (loadJsonData toLocaleDateString JSON_parse Date_parse w this)
  = if isLoaded this then this
    else match loadTry JSON_parse Date_parse this (rawStore w) with
         | Normal (json, loaded) =>
             set_isLoaded (set_tweets (set_jsonData this json) loaded) true
         | Throw _ =>
             set_isLoaded
               (set_tweets this (getFallbackTweets (mainHandle this) (clock w))) true
         end.
Proof.
  unfold loadJsonData, bind, getThis. cbn.
  destruct (isLoaded this); [reflexivity|].
  destruct (loadTry JSON_parse Date_parse this (rawStore w)) as [[json loaded] | e];
    reflexivity.
Qed.

Lemma loadJsonData_result (w : World) (this : AIService) :
  exists out,
    loadJsonData toLocaleDateString JSON_parse Date_parse w this
    = (tt, after (loadJsonData toLocaleDateString JSON_parse Date_parse w this), out).
Proof.
  destruct (loadJsonData toLocaleDateString JSON_parse Date_parse w this)
    as [[[] s] out]. now exists out.
Qed.

Lemma loadJsonData_sets_isLoaded (w : World) (this : AIService) :
  isLoaded (after (loadJsonData toLocaleDateString JSON_parse Date_parse w this)) = true.
Proof.
  rewrite loadJsonData_after. destruct (isLoaded this) eqn:E; [exact E|].
  destruct (loadTry _ _ _ _) as [[json loaded] | e]; reflexivity.
Qed.

Lemma loadJsonData_noop (w : World) (this : AIService) :
  isLoaded this = true ->
  loadJsonData toLocaleDateString JSON_parse Date_parse w this = (tt, this, []).
Proof.
  intros H. unfold loadJsonData, bind, getThis. cbn. now rewrite H.
Qed.

(** X1. A load that starts from an object that is not loaded, whether it
    succeeds or falls back, leaves the cached corpus sorted newest-first
    and marks the object loaded; the read-only fields are not touched. *)
Theorem load_leaves_corpus_newest_first (w : World) (this : AIService) :
  isLoaded this = false ->
  let loaded := after (loadJsonData toLocaleDateString JSON_parse Date_parse w this) in
  isLoaded loaded = true /\
  newestFirst (tweets loaded) /\
  mainHandle loaded = mainHandle this /\
  retweetHandles loaded = retweetHandles this /\
  jsonFilePath loaded = jsonFilePath this.
Proof.
  intros Hfresh. cbv zeta. rewrite loadJsonData_after, Hfresh.
  unfold loadTry. destruct (readFile (rawStore w)) as [content | e].
  - destruct (JSON_parse content) as [json |]; cbn.
    + repeat split. apply sort_byTimeDesc_newestFirst.
    + repeat split. unfold newestFirst. repeat constructor.
      unfold newerOrEqual. cbn. lia.
  - cbn. repeat split. unfold newestFirst. repeat constructor.
    unfold newerOrEqual. cbn. lia.
Qed.

(** X2. After a successful load the cached corpus holds exactly the
    converted tweets of the export that pass the filter, each once per
    occurrence: every cached tweet comes from a JSON tweet with a text that
    is not empty and that is an original tweet or a retweet of a configured
    handle, and the whole parsed export is kept in [jsonData]. *)
Theorem loaded_corpus_is_filtered_export (w : World) (this : AIService)
    (content : string) (json : list JsonTweet) :
  isLoaded this = false ->
  rawStore w = Some content ->
  JSON_parse content = Some json ->
  let loaded := after (loadJsonData toLocaleDateString JSON_parse Date_parse w this) in
  jsonData loaded = json /\
  Permutation (tweets loaded)
    (map (convertJsonTweetToTweet Date_parse (mainHandle this))
       (filter (keepJsonTweet (retweetHandles this)) json)) /\
  (List.length (tweets loaded) <= List.length json)%nat /\
  forall tweet, In tweet (tweets loaded) ->
    exists jsonTweet,
      In jsonTweet json /\
      tweet = convertJsonTweetToTweet Date_parse (mainHandle this) jsonTweet /\
      full_text jsonTweet <> ""%string /\
      (JsString.startsWith (full_text jsonTweet) "RT @" = true ->
       exists handle,
         In handle (retweetHandles this) /\
         JsString.startsWith (JsString.toLowerCase (full_text jsonTweet))
           ("rt @" ++ handle ++ ":")%string = true).
Proof.
  intros Hfresh Hraw Hparse. cbv zeta. rewrite loadJsonData_after, Hfresh.
  unfold loadTry. rewrite Hraw. cbn [readFile]. rewrite Hparse.
  cbn [tweets jsonData set_isLoaded set_tweets set_jsonData].
  split; [reflexivity|]. split; [apply Array_sort_perm|]. split.
  - rewrite Array_sort_length, length_map. apply length_filter_le.
  - intros tweet Hin. apply Array_sort_In, in_map_iff in Hin.
    destruct Hin as [j [Heq Hin]]. apply filter_In in Hin.
    destruct Hin as [Hin Hkeep]. exists j. split; [assumption|].
    split; [now symmetry|]. unfold keepJsonTweet in Hkeep.
    destruct (String.eqb_spec (full_text j) ""%string) as [_ | Hne];
      [discriminate|].
    split; [assumption|]. intros Hrt. rewrite Hrt in Hkeep. cbn [negb] in Hkeep.
    apply existsb_exists in Hkeep. exact Hkeep.
Qed.

(** X3. Once a load has run, the object is loaded and every later load is
    a no-op, whatever the file holds by then: it assigns nothing, reads
    nothing and logs nothing, and [getAllTweets] returns the cached
    corpus. *)
Theorem load_is_cached (w w' : World) (this : AIService) :
  let loaded := after (loadJsonData toLocaleDateString JSON_parse Date_parse w this) in
  loadJsonData toLocaleDateString JSON_parse Date_parse w' loaded = (tt, loaded, []) /\
  getAllTweets toLocaleDateString JSON_parse Date_parse w' loaded
  = (tweets loaded, loaded, []).
Proof.
  cbv zeta.
  pose proof (loadJsonData_sets_isLoaded w this) as Hloaded.
  split.
  - now apply loadJsonData_noop.
  - unfold getAllTweets, bind. now rewrite (loadJsonData_noop w' _ Hloaded).
Qed.

(** X4. The refresh handler always reloads: its reply counts the corpus
    that a load from an object with nothing cached produces, and the object
    it leaves is that of such a load, whatever was cached before. *)
Theorem refresh_reloads_from_scratch (w : World) (this : AIService) :
  let cleared :=
    mkAIService [] (jsonFilePath this) [] false (mainHandle this) (retweetHandles this) in
  let reloaded :=
    after (loadJsonData toLocaleDateString JSON_parse Date_parse w cleared) in
  after (refreshTweets toLocaleDateString JSON_parse Date_parse w this) = reloaded /\
  result (refreshTweets toLocaleDateString JSON_parse Date_parse w this)
  = ("Tweets refreshed from JSON file successfully"%string,
     Z.of_nat (List.length (tweets reloaded))) /\
  isLoaded reloaded = true.
Proof.
  cbv zeta. unfold refreshTweets, getAllTweets, clearMemory, bind, emit, assign,
    getThis, ret. cbn -[loadJsonData].
  set (cleared := mkAIService [] (jsonFilePath this) [] false (mainHandle this)
                    (retweetHandles this)).
  change (set_isLoaded (set_jsonData (set_tweets this []) []) false) with cleared.
  destruct (loadJsonData_result w cleared) as [out Hout].
  rewrite Hout. split; [reflexivity|]. split; [reflexivity|].
  apply loadJsonData_sets_isLoaded.
Qed.

End LoaderFacts.

(** X5. A retweet of a configured handle is kept by the filter of the
    loader whatever the letter case of the handle in the text, as long as
    the configured handle is in lower case. *)
Theorem retweet_of_configured_handle_kept (handles : list string)
    (handle rest : string) (jsonTweet : JsonTweet) :
  In (JsString.toLowerCase handle) handles ->
  full_text jsonTweet = ("RT @" ++ handle ++ ":" ++ rest)%string ->
  keepJsonTweet handles jsonTweet = true.
Proof.
  intros Hin Htext. unfold keepJsonTweet. rewrite Htext.
  assert (H1 : String.eqb ("RT @" ++ handle ++ ":" ++ rest)%string "" = false)
    by reflexivity.
  assert (H2 : JsString.startsWith ("RT @" ++ handle ++ ":" ++ rest)%string "RT @"
               = true) by apply prefix_app.
  rewrite H1, H2. cbn [negb]. apply existsb_exists.
  exists (JsString.toLowerCase handle). split; [assumption|].
  rewrite !toLowerCase_app.
  change (JsString.toLowerCase "RT @") with "rt @"%string.
  change (JsString.toLowerCase ":") with ":"%string.
  unfold JsString.startsWith.
  rewrite (string_app_assoc (JsString.toLowerCase handle) ":"
             (JsString.toLowerCase rest)).
  rewrite (string_app_assoc "rt @" (JsString.toLowerCase handle ++ ":")
             (JsString.toLowerCase rest)).
  apply prefix_app.
Qed.

(** ** Statistics and recent tweets *)

Lemma totalTextLength_perm (l l' : list Tweet) :
  Permutation l l' -> totalTextLength l = totalTextLength l'.
Proof.
  unfold totalTextLength. generalize 0.
  intros a H. revert a. induction H as [| x l l' H IH | x y l | l l' l'' H1 IH1 H2 IH2];
    intros a; cbn [fold_left].
  - reflexivity.
  - apply IH.
  - f_equal. lia.
  - now rewrite IH1.
Qed.

Lemma StronglySorted_last {A : Type} (R : A -> A -> Prop) (l : list A) (z : A) :
  (forall a, R a a) -> StronglySorted R l -> hd_error (rev l) = Some z ->
  In z l /\ forall x, In x l -> R x z.
Proof.
  intros Hrefl Hs. induction Hs as [| a l Hs IH Ha]; cbn [rev]; [discriminate|].
  destruct (rev l) as [| b r] eqn:E; cbn [app hd_error].
  - intros Hz. injection Hz as <-.
    assert (l = []) as ->.
    { rewrite <- (rev_involutive l), E. reflexivity. }
    split; [now left|]. intros x [<- | []]. apply Hrefl.
  - intros Hz. destruct (IH Hz) as [Hin Hle]. split; [now right|].
    intros x [<- | Hx]; [|now apply Hle].
    rewrite Forall_forall in Ha. now apply Ha.
Qed.

Lemma StronglySorted_first {A : Type} (R : A -> A -> Prop) (l : list A) (z : A) :
  (forall a, R a a) -> StronglySorted R l -> hd_error l = Some z ->
  In z l /\ forall x, In x l -> R z x.
Proof.
  intros Hrefl Hs. destruct Hs as [| a l Hs Ha]; cbn [hd_error]; [discriminate|].
  intros Hz. injection Hz as <-. split; [now left|].
  intros x [<- | Hx]; [apply Hrefl|]. rewrite Forall_forall in Ha. now apply Ha.
Qed.

Lemma roundDiv_bounds (a b : Z) :
  0 < b -> 2 * b * roundDiv a b - b <= 2 * a < 2 * b * roundDiv a b + b.
Proof.
  intros Hb. unfold roundDiv.
  pose proof (Z.div_mod (2 * a + b) (2 * b) ltac:(lia)) as Hdm.
  pose proof (Z.mod_pos_bound (2 * a + b) (2 * b) ltac:(lia)) as Hm.
  lia.
Qed.

Section StatsFacts.
Variable toLocaleDateString : Z -> string.
Variable JSON_parse : string -> option (list JsonTweet).
Variable Date_parse : string -> Z.

(** What the statistics return and leave, on an object that is loaded. *)
Lemma getTweetStats_loaded (w : World) (this : AIService) :
  isLoaded this = true ->
  getTweetStats toLocaleDateString JSON_parse Date_parse w this
  = match tweets this with
    | [] => (mkTweetStats 0 None None 0, this, [])
    | _ :: _ =>
        let sorted := Array_sort byTimeAsc (tweets this) in
        (mkTweetStats (Z.of_nat (List.length sorted))
           (option_map timestamp (hd_error sorted))
           (option_map timestamp (hd_error (rev sorted)))
           (roundDiv (totalTextLength sorted) (Z.of_nat (List.length sorted))),
         set_tweets this sorted, [])
    end.
Proof.
  intros H. unfold getTweetStats, bind.
  rewrite (loadJsonData_noop toLocaleDateString JSON_parse Date_parse w this H).
  cbn [getThis]. destruct (tweets this) as [| t l] eqn:E; [reflexivity|].
  unfold assign, ret. cbn [tweets set_tweets app]. rewrite E. reflexivity.
Qed.

(** The statistics first load, then work on the loaded object. *)
Lemma getTweetStats_via_load (w : World) (this : AIService) :
  let loaded := after (loadJsonData toLocaleDateString JSON_parse Date_parse w this) in
  result (getTweetStats toLocaleDateString JSON_parse Date_parse w this)
  = result (getTweetStats toLocaleDateString JSON_parse Date_parse w loaded) /\
  after (getTweetStats toLocaleDateString JSON_parse Date_parse w this)
  = after (getTweetStats toLocaleDateString JSON_parse Date_parse w loaded).
Proof.
  cbv zeta.
  pose proof (loadJsonData_sets_isLoaded toLocaleDateString JSON_parse Date_parse w this)
    as Hloaded.
  destruct (loadJsonData_result toLocaleDateString JSON_parse Date_parse w this)
    as [out Hout].
  set (loaded := after (loadJsonData toLocaleDateString JSON_parse Date_parse w this))
    in *.
  unfold getTweetStats at 1 3. unfold bind. rewrite Hout.
  rewrite (getTweetStats_loaded w loaded Hloaded).
  cbn [getThis]. destruct (tweets loaded) as [| t l] eqn:E.
  - split; reflexivity.
  - unfold assign, ret. cbn [tweets set_tweets app]. rewrite E. split; reflexivity.
Qed.

(** X6. The statistics never lose or repeat a record of the cached
    corpus: they leave it as a permutation of the loaded corpus, sorted
    oldest-first, with the object still loaded. *)
Theorem getTweetStats_leaves_sorted_permutation (w : World) (this : AIService) :
  let loaded := after (loadJsonData toLocaleDateString JSON_parse Date_parse w this) in
  let left := after (getTweetStats toLocaleDateString JSON_parse Date_parse w this) in
  Permutation (tweets left) (tweets loaded) /\
  StronglySorted olderOrEqual (tweets left) /\
  isLoaded left = true.
Proof.
  cbv zeta. destruct (getTweetStats_via_load w this) as [_ ->].
  pose proof (loadJsonData_sets_isLoaded toLocaleDateString JSON_parse Date_parse w this)
    as Hloaded.
  set (loaded := after (loadJsonData toLocaleDateString JSON_parse Date_parse w this))
    in *.
  rewrite (getTweetStats_loaded w loaded Hloaded).
  destruct (tweets loaded) as [| t l] eqn:E.
  - unfold after. cbn [fst snd]. rewrite E.
    split; [apply perm_nil|]. split; [constructor | exact Hloaded].
  - cbv zeta. unfold after. cbn [fst snd tweets set_tweets isLoaded].
    split; [apply Array_sort_perm|]. split; [apply sort_byTimeAsc_oldestFirst|].
    exact Hloaded.
Qed.

(** X7. The statistics count the loaded corpus; the oldest and the newest
    date they report are timestamps of records of the corpus and bound the
    timestamp of every record; on an empty corpus they report no dates and
    zeros. *)
Theorem getTweetStats_dates_bound_corpus (w : World) (this : AIService) :
  let loaded := after (loadJsonData toLocaleDateString JSON_parse Date_parse w this) in
  let stats := result (getTweetStats toLocaleDateString JSON_parse Date_parse w this) in
  totalTweets stats = Z.of_nat (List.length (tweets loaded)) /\
  (tweets loaded = [] ->
   oldestTweet stats = None /\ newestTweet stats = None /\ averageLength stats = 0) /\
  (tweets loaded <> [] ->
   exists oldest newest,
     oldestTweet stats = Some oldest /\ newestTweet stats = Some newest /\
     In oldest (map timestamp (tweets loaded)) /\
     In newest (map timestamp (tweets loaded)) /\
     forall tweet, In tweet (tweets loaded) ->
       oldest <= timestamp tweet <= newest).
Proof.
  cbv zeta. destruct (getTweetStats_via_load w this) as [-> _].
  pose proof (loadJsonData_sets_isLoaded toLocaleDateString JSON_parse Date_parse w this)
    as Hloaded.
  set (loaded := after (loadJsonData toLocaleDateString JSON_parse Date_parse w this))
    in *.
  rewrite (getTweetStats_loaded w loaded Hloaded).
  destruct (tweets loaded) as [| t l] eqn:E.
  - unfold result. cbn [fst]. split; [reflexivity|]. split; [now repeat split|].
    intros H. congruence.
  - cbv zeta. unfold result. cbn [fst totalTweets oldestTweet newestTweet].
    rewrite Array_sort_length. split; [reflexivity|]. split; [discriminate|].
    intros _.
    pose proof (sort_byTimeAsc_oldestFirst (t :: l)) as Hs.
    pose proof (Array_sort_perm byTimeAsc (t :: l)) as Hp.
    assert (Hrefl : forall a, olderOrEqual a a) by (intros a; unfold olderOrEqual; lia).
    set (sorted := Array_sort byTimeAsc (t :: l)) in *.
    destruct (hd_error sorted) as [first |] eqn:Hfirst.
    2:{ destruct sorted; [|discriminate].
        apply Permutation_nil in Hp. discriminate. }
    destruct (hd_error (rev sorted)) as [last |] eqn:Hlast.
    2:{ destruct (rev sorted) eqn:Er; [|discriminate].
        assert (sorted = []) by (rewrite <- (rev_involutive sorted), Er; reflexivity).
        subst sorted. rewrite H in Hfirst. discriminate. }
    destruct (StronglySorted_first _ _ _ Hrefl Hs Hfirst) as [Hin1 Hle1].
    destruct (StronglySorted_last _ _ _ Hrefl Hs Hlast) as [Hin2 Hle2].
    exists (timestamp first), (timestamp last). cbn [option_map].
    split; [reflexivity|]. split; [reflexivity|].
    split; [apply in_map; eapply Permutation_in; [exact Hp | exact Hin1]|].
    split; [apply in_map; eapply Permutation_in; [exact Hp | exact Hin2]|].
    intros tweet Hin.
    assert (Hin' : In tweet sorted)
      by (eapply Permutation_in; [symmetry; exact Hp | exact Hin]).
    clear Hin. rename Hin' into Hin.
    specialize (Hle1 tweet Hin). specialize (Hle2 tweet Hin).
    unfold olderOrEqual in *. lia.
Qed.

(** X8. On a corpus that is not empty the average length that the
    statistics report is the mean of the text lengths rounded to the
    nearest integer: it is within one half of the mean. *)
Theorem getTweetStats_average_is_rounded_mean (w : World) (this : AIService) :
  let loaded := after (loadJsonData toLocaleDateString JSON_parse Date_parse w this) in
  let stats := result (getTweetStats toLocaleDateString JSON_parse Date_parse w this) in
  let n := Z.of_nat (List.length (tweets loaded)) in
  tweets loaded <> [] ->
  2 * n * averageLength stats - n
  <= 2 * totalTextLength (tweets loaded)
  < 2 * n * averageLength stats + n.
Proof.
  cbv zeta. destruct (getTweetStats_via_load w this) as [-> _].
  pose proof (loadJsonData_sets_isLoaded toLocaleDateString JSON_parse Date_parse w this)
    as Hloaded.
  set (loaded := after (loadJsonData toLocaleDateString JSON_parse Date_parse w this))
    in *.
  rewrite (getTweetStats_loaded w loaded Hloaded).
  destruct (tweets loaded) as [| t l] eqn:E; [congruence|]. intros _.
  cbv zeta. unfold result. cbn [fst averageLength].
  rewrite Array_sort_length.
  rewrite (totalTextLength_perm _ _ (Array_sort_perm byTimeAsc (t :: l))).
  apply roundDiv_bounds. cbn [List.length]. lia.
Qed.

(** X9. The statistics are idempotent: a second call, whatever the file
    holds by then, returns the same statistics, leaves the object as the
    first call left it, and leaves no trace. *)
Theorem getTweetStats_idempotent (w w' : World) (this : AIService) :
  let first := getTweetStats toLocaleDateString JSON_parse Date_parse w this in
  getTweetStats toLocaleDateString JSON_parse Date_parse w' (after first)
  = (result first, after first, []).
Proof.
  cbv zeta. destruct (getTweetStats_via_load w this) as [Hres Haft].
  rewrite Hres, Haft.
  pose proof (loadJsonData_sets_isLoaded toLocaleDateString JSON_parse Date_parse w this)
    as Hloaded.
  set (loaded := after (loadJsonData toLocaleDateString JSON_parse Date_parse w this))
    in *.
  rewrite (getTweetStats_loaded w loaded Hloaded).
  destruct (tweets loaded) as [| t l] eqn:E.
  - unfold after, result. cbn [fst snd].
    rewrite (getTweetStats_loaded w' loaded Hloaded), E. reflexivity.
  - cbv zeta. unfold after, result. cbn [fst snd].
    set (sorted := Array_sort byTimeAsc (t :: l)).
    assert (Hfix : Array_sort byTimeAsc sorted = sorted).
    { apply Array_sort_fixed.
      eapply StronglySorted_weaken; [|apply sort_byTimeAsc_oldestFirst].
      intros a b Hab. now apply byTimeAsc_le. }
    rewrite getTweetStats_loaded by exact Hloaded.
    cbn [tweets set_tweets]. cbv zeta. rewrite Hfix.
    destruct sorted as [| s0 rest] eqn:Es.
    + pose proof (Array_sort_perm byTimeAsc (t :: l)) as Hp.
      fold sorted in Hp. rewrite Es in Hp. apply Permutation_nil in Hp. discriminate.
    + reflexivity.
Qed.

(** X10. The recent tweets are a prefix of the loaded corpus: a count
    that is not negative gives that many records, or all of them when the
    corpus is shorter; a negative count leaves out that many records at
    the end. *)
Theorem getRecentTweets_is_prefix (w : World) (count : Z) (this : AIService) :
  let loaded := after (loadJsonData toLocaleDateString JSON_parse Date_parse w this) in
  let recent :=
    result (getRecentTweets toLocaleDateString JSON_parse Date_parse w count this) in
  (exists rest, tweets loaded = recent ++ rest) /\
  (0 <= count ->
   List.length recent = Nat.min (Z.to_nat count) (List.length (tweets loaded))) /\
  (count < 0 ->
   List.length recent = (List.length (tweets loaded) - Z.to_nat (- count))%nat) /\
  after (getRecentTweets toLocaleDateString JSON_parse Date_parse w count this) = loaded.
Proof.
  cbv zeta. unfold getRecentTweets, bind.
  destruct (loadJsonData_result toLocaleDateString JSON_parse Date_parse w this)
    as [out Hout].
  rewrite Hout. unfold result, after. cbn [getThis ret fst snd].
  set (l := tweets _). unfold slice0. split; [|split; [|split]].
  - destruct (0 <=? count); eexists; symmetry; apply firstn_skipn.
  - intros H. apply Z.leb_le in H. rewrite H. apply length_firstn.
  - intros H. apply Z.leb_gt in H. rewrite H. rewrite length_firstn. lia.
  - reflexivity.
Qed.

End StatsFacts.

(** ** Letter case *)

Lemma toLowerChar_idem (c : ascii) :
  JsString.toLowerChar (JsString.toLowerChar c) = JsString.toLowerChar c.
Proof. destruct c as [[] [] [] [] [] [] [] []]; reflexivity. Qed.

Lemma toLowerCase_idem (s : string) :
  JsString.toLowerCase (JsString.toLowerCase s) = JsString.toLowerCase s.
Proof.
  induction s as [| c s IH]; cbn; [reflexivity|]. now rewrite toLowerChar_idem, IH.
Qed.

Lemma isUpper_lower (c : ascii) : JsString.isUpper (JsString.toLowerChar c) = false.
Proof. destruct c as [[] [] [] [] [] [] [] []]; reflexivity. Qed.

Lemma isLowerCase_lower (s : string) : isLowerCase (JsString.toLowerCase s) = true.
Proof.
  unfold isLowerCase. induction s as [| c s IH]; cbn; [reflexivity|].
  now rewrite isUpper_lower, IH.
Qed.

Lemma isLowerCase_fixed (s : string) :
  isLowerCase s = true -> JsString.toLowerCase s = s.
Proof.
  unfold isLowerCase. induction s as [| c s IH]; cbn; [reflexivity|].
  intros H. apply andb_true_iff in H. destruct H as [Hc Hs].
  rewrite (IH Hs). unfold JsString.toLowerChar.
  apply negb_true_iff in Hc. now rewrite Hc.
Qed.

Lemma isLowerCase_app (a b : string) :
  isLowerCase (a ++ b)%string = isLowerCase a && isLowerCase b.
Proof.
  unfold isLowerCase. induction a as [| c a IH]; cbn; [reflexivity|].
  now rewrite IH, andb_assoc.
Qed.



Section KeywordFacts.
Variable toLocaleDateString : Z -> string.
Variable JSON_parse : string -> option (list JsonTweet).
Variable Date_parse : string -> Z.



End KeywordFacts.

(** ** The extracted terms *)

Lemma ofArray_In (l : list string) (x : string) :
  In x (JsSet.ofArray l) <-> In x l.
Proof.
  unfold JsSet.ofArray. rewrite <- !has_In, has_fold_add. reflexivity.
Qed.

Lemma fold_add_NoDup (l : list string) (seen : JsSet.t) :
  NoDup seen -> NoDup (fold_left JsSet.add l seen).
Proof.
  revert seen. induction l as [| x l IH]; intros seen H; cbn [fold_left];
    [assumption|]. apply IH. now apply add_NoDup.
Qed.

Lemma isLowerCase_snoc (cur : string) (c : ascii) :
  isLowerCase cur = true -> JsString.isUpper c = false ->
  isLowerCase (JsString.snoc cur c) = true.
Proof.
  intros Hcur Hc. unfold JsString.snoc. rewrite isLowerCase_app, Hcur.
  unfold isLowerCase. cbn. now rewrite Hc.
Qed.

Lemma snoc_not_empty (cur : string) (c : ascii) : JsString.snoc cur c <> ""%string.
Proof. destruct cur; discriminate. Qed.

Lemma quoted_aux_normal (s : string) (st : option string) (p : string) :
  isLowerCase s = true ->
  (forall cur, st = Some cur -> isLowerCase cur = true) ->
  In p (Regex.quoted_aux st s) -> p <> ""%string /\ isLowerCase p = true.
Proof.
  revert st. induction s as [| c s IH]; intros st Hs Hst; cbn [Regex.quoted_aux];
    [intros []|].
  unfold isLowerCase in Hs. cbn in Hs. apply andb_true_iff in Hs.
  destruct Hs as [Hc Hs]. apply negb_true_iff in Hc. fold (isLowerCase s) in Hs.
  destruct st as [cur |].
  - destruct (JsString.isQuote c).
    + destruct cur as [| d cur].
      * apply IH; [assumption|]. intros cur' Heq. injection Heq as <-. reflexivity.
      * intros [<- | Hin].
        -- split; [discriminate | now apply Hst].
        -- revert Hin. apply IH; [assumption | discriminate].
    + apply IH; [assumption|]. intros cur' Heq. injection Heq as <-.
      apply isLowerCase_snoc; [now apply Hst | assumption].
  - destruct (JsString.isQuote c); apply IH; try assumption; try discriminate.
    intros cur' Heq. injection Heq as <-. reflexivity.
Qed.

Lemma words_aux_lower (s cur w : string) :
  isLowerCase s = true -> isLowerCase cur = true ->
  In w (Regex.words_aux cur s) -> isLowerCase w = true.
Proof.
  revert cur. induction s as [| c s IH]; intros cur Hs Hcur; cbn [Regex.words_aux].
  - destruct cur; [intros [] | intros [<- | []]; assumption].
  - unfold isLowerCase in Hs. cbn in Hs. apply andb_true_iff in Hs.
    destruct Hs as [Hc Hs]. apply negb_true_iff in Hc. fold (isLowerCase s) in Hs.
    destruct (JsString.isWordChar c).
    + apply IH; [assumption|]. now apply isLowerCase_snoc.
    + intros Hin. apply in_app_or in Hin. destruct Hin as [Hin | Hin].
      * destruct cur; [destruct Hin | destruct Hin as [<- | []]; assumption].
      * revert Hin. now apply IH.
Qed.

Lemma expandedTerms_normal (message t : string) :
  In t (expandedTerms message) -> t <> ""%string /\ isLowerCase t = true.
Proof.
  unfold expandedTerms.
  destruct (_ || _); destruct (JsString.includes message "ninja");
    destruct (JsString.includes message "samurai");
    destruct (JsString.includes message "hana");
    cbn [app In]; intros H;
    repeat (destruct H as [<- | H]; [split; [discriminate | reflexivity]|]);
    destruct H.
Qed.

(** X12. The extracted terms are pairwise distinct, none is empty, and
    all are in lower case. *)
Theorem extractSearchTerms_normalised (userMessage : string) :
  NoDup (extractSearchTerms userMessage) /\
  forall term, In term (extractSearchTerms userMessage) ->
    term <> ""%string /\ JsString.toLowerCase term = term.
Proof.
  unfold extractSearchTerms. split.
  - apply fold_add_NoDup. constructor.
  - intros term Hin. apply (proj1 (ofArray_In _ _)) in Hin.
    assert (H : term <> ""%string /\ isLowerCase term = true).
    { apply in_app_or in Hin. destruct Hin as [Hin | Hin].
      - revert Hin. apply quoted_aux_normal;
          [apply isLowerCase_lower | discriminate].
      - apply in_app_or in Hin. destruct Hin as [Hin | Hin].
        + now apply expandedTerms_normal in Hin.
        + apply filter_In in Hin. destruct Hin as [Hin Hkeep]. split.
          * intros ->. discriminate.
          * revert Hin. apply words_aux_lower;
              [apply isLowerCase_lower | reflexivity]. }
    destruct H as [Hne Hlow]. split; [assumption | now apply isLowerCase_fixed].
Qed.

(** ** The query in another letter case *)

Lemma snoc_lower (cur : string) (c : ascii) :
  JsString.toLowerCase (JsString.snoc cur c)
  = JsString.snoc (JsString.toLowerCase cur) (JsString.toLowerChar c).
Proof. unfold JsString.snoc. now rewrite toLowerCase_app. Qed.

Lemma quoted_aux_lower (s : string) (st : option string) :
  Regex.quoted_aux (option_map JsString.toLowerCase st) (JsString.toLowerCase s)
  = map JsString.toLowerCase (Regex.quoted_aux st s).
Proof.
  revert st. induction s as [| c s IH]; intros st;
    cbn [Regex.quoted_aux JsString.toLowerCase]; [reflexivity|].
  rewrite isQuote_lower. destruct st as [cur |]; cbn [option_map].
  - destruct (JsString.isQuote c).
    + destruct cur as [| d cur]; cbn [JsString.toLowerCase map].
      * apply (IH (Some ""%string)).
      * f_equal. apply (IH None).
    + rewrite <- snoc_lower. apply (IH (Some (JsString.snoc cur c))).
  - destruct (JsString.isQuote c).
    + apply (IH (Some ""%string)).
    + apply (IH None).
Qed.

Lemma phrases_lower (msg : string) :
  map JsString.toLowerCase (Regex.match_quoted (JsString.toLowerCase msg))
  = map JsString.toLowerCase (Regex.match_quoted msg).
Proof.
  unfold Regex.match_quoted.
  change (Regex.quoted_aux None (JsString.toLowerCase msg))
    with (Regex.quoted_aux (option_map JsString.toLowerCase None)
            (JsString.toLowerCase msg)).
  rewrite quoted_aux_lower, map_map.
  apply map_ext. intros p. apply toLowerCase_idem.
Qed.

Lemma extractSearchTerms_lower (msg : string) :
  extractSearchTerms (JsString.toLowerCase msg) = extractSearchTerms msg.
Proof. unfold extractSearchTerms. now rewrite toLowerCase_idem. Qed.

Lemma calculateRelevanceScore_lower (now : Z) (t : Tweet) (terms : list string)
    (msg : string) :
  calculateRelevanceScore now t terms (JsString.toLowerCase msg)
  = calculateRelevanceScore now t terms msg.
Proof.
  unfold calculateRelevanceScore, matchScore, phraseScore.
  now rewrite phrases_lower.
Qed.

Lemma searchAllTweets_lower (now : Z) (raw : RawStore) (msg : string)
    (l : list Tweet) :
  searchAllTweets now raw (JsString.toLowerCase msg) l = searchAllTweets now raw msg l.
Proof.
  unfold searchAllTweets, combinedTweets, topRelevantTweets.
  rewrite extractSearchTerms_lower.
  destruct (grepSearchJsonFile raw (extractSearchTerms msg)) as [grep out].
  rewrite !searchResults_eq.
  rewrite (map_ext (candidateOf now grep (extractSearchTerms msg)
                      (JsString.toLowerCase msg))
                   (candidateOf now grep (extractSearchTerms msg) msg)).
  - reflexivity.
  - intros t. unfold candidateOf, boostedScore.
    now rewrite calculateRelevanceScore_lower.
Qed.

(** X13. The letter case of the query plays no role: the lower-cased
    query yields the same selected records, the same trace and the same
    rendered context as the query itself. *)
Theorem context_ignores_query_case (toLocaleDateString : Z -> string)
    (handle : string) (now : Z) (raw : RawStore) (userMessage : string)
    (tweets : list Tweet) :
  searchAllTweets now raw (JsString.toLowerCase userMessage) tweets
  = searchAllTweets now raw userMessage tweets /\
  buildSmartContext toLocaleDateString handle now raw
    (JsString.toLowerCase userMessage) tweets
  = buildSmartContext toLocaleDateString handle now raw userMessage tweets.
Proof.
  split; [apply searchAllTweets_lower|].
  unfold buildSmartContext. destruct tweets as [| t l]; [reflexivity|].
  now rewrite searchAllTweets_lower, extractSearchTerms_lower.
Qed.

(** ** Bonuses *)

Lemma Qmake_le (a b : Z) (p : BinNums.positive) : a <= b -> (a # p <= b # p)%Q.
Proof. intros H. unfold Qle. cbn [Qnum Qden]. nia. Qed.

(** X14. The engagement bonus is capped at 20, grows with the engagement,
    equals a tenth of the engagement up to 200 and is 20 from 200 on. *)
Theorem engagementBonus_capped_and_monotone (a b : Tweet) :
  (engagementBonus a <= 20)%Q /\
  (engagement a <= engagement b -> (engagementBonus a <= engagementBonus b)%Q) /\
  (engagement a <= 200 -> (engagementBonus a == engagement a # 10)%Q) /\
  (200 <= engagement a -> (engagementBonus a == 20)%Q).
Proof.
  unfold engagementBonus. split; [apply Q.le_min_r|]. split; [|split].
  - intros H. apply Q.min_le_compat_r. now apply Qmake_le.
  - intros H. apply Q.min_l. unfold Qle. cbn [Qnum Qden]. lia.
  - intros H. apply Q.min_r. unfold Qle. cbn [Qnum Qden]. lia.
Qed.

Lemma recencyBonus_nonneg (now : Z) (t : Tweet) : (0 <= recencyBonus now t)%Q.
Proof.
  unfold recencyBonus. destruct (Qlt_bool _ _); [apply Q.le_max_l | apply Qle_refl].
Qed.

Lemma days_lt_30 (now : Z) (t : Tweet) :
  (daysSincePosted now t < 30)%Q <-> now - timestamp t < 2592000000.
Proof. unfold daysSincePosted, Qlt. cbn [Qnum Qden]. lia. Qed.

Lemma recency_formula (now : Z) (t : Tweet) :
  (2 - daysSincePosted now t / 15 == 2 - ((now - timestamp t) # 1296000000))%Q.
Proof.
  unfold daysSincePosted.
  rewrite (Qmake_Qdiv (now - timestamp t) 86400000),
    (Qmake_Qdiv (now - timestamp t) 1296000000).
  field.
Qed.

Lemma recency_value_bounds (d : Z) :
  0 <= d < 2592000000 ->
  (0 <= 2 - (d # 1296000000))%Q /\ (2 - (d # 1296000000) <= 2)%Q.
Proof.
  intros H. unfold Qle, Qminus, Qplus, Qopp. cbn [Qnum Qden].
  rewrite Pos2Z.inj_mul. lia.
Qed.

(** X15. The recency bonus is never negative; it is zero for a record
    that is 30 days old or older; for a younger record that is not dated in
    the future it is 2 minus the age in days divided by 15, which is at
    most 2. *)
Theorem recencyBonus_bounds (now : Z) (tweet : Tweet) :
  (0 <= recencyBonus now tweet)%Q /\
  (2592000000 <= now - timestamp tweet -> recencyBonus now tweet = 0%Q) /\
  (0 <= now - timestamp tweet < 2592000000 ->
   (recencyBonus now tweet == 2 - ((now - timestamp tweet) # 1296000000))%Q /\
   (recencyBonus now tweet <= 2)%Q).
Proof.
  split; [apply recencyBonus_nonneg|]. unfold recencyBonus. split.
  - intros H. destruct (Qlt_bool _ _) eqn:E; [|reflexivity].
    apply Qlt_bool_iff, days_lt_30 in E. lia.
  - intros [H0 H30].
    assert (E : Qlt_bool (daysSincePosted now tweet) 30 = true)
      by (apply Qlt_bool_iff, days_lt_30; exact H30).
    rewrite E.
    destruct (recency_value_bounds _ (conj H0 H30)) as [Hlo Hhi].
    assert (Hpos : (0 <= 2 - daysSincePosted now tweet / 15)%Q)
      by (rewrite recency_formula; exact Hlo).
    rewrite (Q.max_r _ _ Hpos). split; [apply recency_formula|].
    rewrite recency_formula. exact Hhi.
Qed.

(** ** Match scores *)

Lemma termScore_cases (tweetText term : string) :
  (JsString.includes tweetText (JsString.toLowerCase term) = false /\
   termScore tweetText term = 0) \/
  (JsString.includes tweetText (JsString.toLowerCase term) = true /\
   10 <= termScore tweetText term).
Proof.
  unfold termScore.
  destruct (JsString.includes tweetText (JsString.toLowerCase term)) eqn:E;
    [right | left; now split].
  split; [reflexivity|]. apply occurrences_includes in E.
  destruct (Regex.wordBoundaryTest tweetText (JsString.toLowerCase term)); lia.
Qed.

(** A loop that adds, for each element, nothing or at least 10. *)
Lemma addLoop_cases {A : Type} (f : A -> Z) (l : list A) (init : Z) :
  (forall x, f x = 0 \/ 10 <= f x) ->
  let total := fold_left (fun score x => score + f x) l init in
  (total = init /\ forall x, In x l -> f x = 0) \/
  (init + 10 <= total /\ exists x, In x l /\ 10 <= f x).
Proof.
  intros Hf. cbv zeta. revert init. induction l as [| x l IH]; intros init;
    cbn [fold_left].
  - left. split; [reflexivity | intros x []].
  - destruct (IH (init + f x)) as [[Heq Hall] | [Hge [y [Hy Hfy]]]].
    + destruct (Hf x) as [Hx | Hx].
      * left. split; [lia|]. intros z [<- | Hz]; [assumption | now apply Hall].
      * right. split; [lia|]. exists x. split; [now left | assumption].
    + right. split.
      * destruct (Hf x); lia.
      * exists y. split; [now right | assumption].
Qed.

Lemma phraseLoop_as_sum (tweetText : string) (phrases : list string) (init : Z) :
  fold_left
    (fun score phrase =>
       if JsString.includes tweetText phrase then score + 100 else score)
    phrases init
  = fold_left
      (fun score phrase =>
         score + (if JsString.includes tweetText phrase then 100 else 0))
      phrases init.
Proof.
  revert init. induction phrases as [| p phrases IH]; intros init; cbn [fold_left];
    [reflexivity|].
  destruct (JsString.includes tweetText p); rewrite IH; f_equal; lia.
Qed.

(** X16. The score before the bonuses is zero exactly when the text
    contains no quoted phrase of the query and no search term; otherwise it
    is at least 10.  It is never negative. *)
Theorem matchScore_zero_iff_no_match (tweet : Tweet) (searchTerms : list string)
    (originalMessage : string) :
  let tweetText := JsString.toLowerCase (text tweet) in
  let nothingMatches :=
    (forall phrase, In phrase (Regex.match_quoted originalMessage) ->
       JsString.includes tweetText (JsString.toLowerCase phrase) = false) /\
    (forall term, In term searchTerms ->
       JsString.includes tweetText (JsString.toLowerCase term) = false) in
  (matchScore tweet searchTerms originalMessage = 0 <-> nothingMatches) /\
  (matchScore tweet searchTerms originalMessage = 0 \/
   10 <= matchScore tweet searchTerms originalMessage).
Proof.
  cbv zeta. unfold matchScore, phraseScore. rewrite phraseLoop_as_sum.
  set (tweetText := JsString.toLowerCase (text tweet)).
  set (phrases := map JsString.toLowerCase (Regex.match_quoted originalMessage)).
  pose proof (addLoop_cases
                (fun phrase => if JsString.includes tweetText phrase then 100 else 0)
                phrases 0) as Hp.
  cbv zeta in Hp.
  set (p := fold_left _ phrases 0) in *.
  pose proof (addLoop_cases (termScore tweetText) searchTerms p) as Ht.
  cbv zeta in Ht.
  set (total := fold_left _ searchTerms p) in *.
  assert (Hp' := Hp ltac:(intros x; cbv beta;
                           destruct (JsString.includes tweetText x);
                           [right; cbv iota; lia | left; reflexivity])).
  assert (Ht' := Ht ltac:(intros x; destruct (termScore_cases tweetText x)
                            as [[_ H] | [_ H]]; [now left | now right])).
  clear Hp Ht.
  assert (Hphrase : forall q, In q (Regex.match_quoted originalMessage) ->
                      In (JsString.toLowerCase q) phrases)
    by (intros q Hq; now apply in_map).
  split.
  - split.
    + intros Hzero.
      destruct Hp' as [[Hp0 Hpall] | [Hp10 _]];
        destruct Ht' as [[Ht0 Htall] | [Ht10 _]]; try lia.
      split.
      * intros q Hq. specialize (Hpall _ (Hphrase q Hq)). cbv beta in Hpall.
        destruct (JsString.includes tweetText (JsString.toLowerCase q));
          [discriminate | reflexivity].
      * intros term Hterm. specialize (Htall term Hterm).
        destruct (termScore_cases tweetText term) as [[H _] | [_ H]];
          [assumption | lia].
    + intros [Hnop Hnot].
      destruct Hp' as [[Hp0 _] | [_ [q [Hq Hq10]]]].
      * destruct Ht' as [[Ht0 _] | [_ [term [Hterm Hterm10]]]]; [lia|].
        exfalso. destruct (termScore_cases tweetText term) as [[_ H] | [H _]];
          [lia|]. rewrite (Hnot term Hterm) in H. discriminate.
      * exfalso. unfold phrases in Hq. apply in_map_iff in Hq.
        destruct Hq as [q0 [<- Hq0]]. rewrite (Hnop q0 Hq0) in Hq10. lia.
  - destruct Hp' as [[Hp0 _] | [Hp10 _]]; destruct Ht' as [[Ht0 _] | [Ht10 _]]; lia.
Qed.

Lemma termLoop_hit (tweetText : string) (terms : list string) (init : Z)
    (term : string) :
  In term terms ->
  JsString.includes tweetText (JsString.toLowerCase term) = true ->
  init + 10 <= fold_left (fun score term => score + termScore tweetText term)
                 terms init.
Proof.
  intros Hin Hinc. revert init. induction terms as [| x l IH]; [destruct Hin|].
  intros init. cbn [fold_left]. destruct Hin as [-> | Hin].
  - destruct (termScore_cases tweetText term) as [[H _] | [_ H]]; [congruence|].
    pose proof (termLoop_ge tweetText l (init + termScore tweetText term)). lia.
  - specialize (IH Hin (init + termScore tweetText x)).
    pose proof (termScore_nonneg tweetText x). lia.
Qed.

Lemma engagementBonus_nonneg (t : Tweet) :
  0 <= engagement t -> (0 <= engagementBonus t)%Q.
Proof.
  intros H. unfold engagementBonus. apply Q.min_glb.
  - unfold Qle. cbn [Qnum Qden]. lia.
  - discriminate.
Qed.

(** X17. Every record of the corpus whose engagement is not negative and
    whose text contains a quoted phrase of the query or a search term is a
    ranking candidate, whatever the raw scan found. *)
Theorem matching_record_is_candidate (now : Z) (grepMatches : JsSet.t)
    (searchTerms : list string) (userMessage : string) (allTweets : list Tweet)
    (tweet : Tweet) :
  0 <= engagement tweet ->
  In tweet allTweets ->
  (hasQuotedPhrase tweet userMessage \/
   exists term, In term searchTerms /\
     JsString.includes (JsString.toLowerCase (text tweet))
       (JsString.toLowerCase term) = true) ->
  In tweet (map fst (searchResults now grepMatches searchTerms userMessage allTweets)).
Proof.
  intros Heng Hin Hmatch.
  assert (Hscore : 10 <= matchScore tweet searchTerms userMessage).
  { destruct Hmatch as [Hphrase | [term [Hterm Hinc]]].
    - pose proof (matchScore_phrase tweet searchTerms userMessage Hphrase). lia.
    - unfold matchScore.
      pose proof (phraseLoop_ge (JsString.toLowerCase (text tweet))
                    (map JsString.toLowerCase (Regex.match_quoted userMessage)) 0)
        as Hinit.
      fold (phraseScore (JsString.toLowerCase (text tweet)) userMessage) in Hinit.
      pose proof (termLoop_hit (JsString.toLowerCase (text tweet)) searchTerms
                    (phraseScore (JsString.toLowerCase (text tweet)) userMessage)
                    term Hterm Hinc).
      lia. }
  apply in_map_iff. eexists (tweet, _). split; [reflexivity|].
  apply searchResults_In. split; [assumption|]. split; [reflexivity|].
  unfold boostedScore, calculateRelevanceScore.
  pose proof (engagementBonus_nonneg tweet Heng) as He.
  pose proof (recencyBonus_nonneg now tweet) as Hr.
  assert (Hm : (10 <= inject_Z (matchScore tweet searchTerms userMessage))%Q).
  { change 10%Q with (inject_Z 10). now rewrite <- Zle_Qle. }
  set (m := inject_Z _) in *. set (e := engagementBonus tweet) in *.
  set (r := recencyBonus now tweet) in *.
  assert (Hrel : (0 < m + e + r)%Q).
  { apply Qlt_le_trans with (y := 10%Q); [reflexivity|].
    rewrite <- (Qplus_0_r 10). rewrite <- (Qplus_0_r (10 + 0)).
    apply Qplus_le_compat; [apply Qplus_le_compat|]; assumption. }
  destruct (JsSet.has grepMatches (id tweet)); [|exact Hrel].
  apply Qlt_le_trans with (y := (m + e + r)%Q); [exact Hrel|].
  rewrite <- (Qplus_0_r (m + e + r)) at 1.
  apply Qplus_le_compat; [apply Qle_refl | discriminate].
Qed.

(** ** Ranking *)

Lemma byScoreDesc_le (a b : Tweet * Q) :
  (byScoreDesc a b <= 0)%Q <-> (snd b <= snd a)%Q.
Proof. unfold byScoreDesc. split; intros H; lra. Qed.

Lemma sort_byScoreDesc_sorted (l : list (Tweet * Q)) :
  StronglySorted (fun a b => (snd b <= snd a)%Q) (Array_sort byScoreDesc l).
Proof.
  apply Sorted_StronglySorted.
  - intros a b c Hab Hbc. cbv beta in *. lra.
  - apply (Sorted_weaken (fun a b => (byScoreDesc a b <= 0)%Q)).
    + intros a b. apply byScoreDesc_le.
    + apply Array_sort_sorted. intros a b H. apply Qnot_le_lt in H.
      unfold byScoreDesc in *. lra.
Qed.

(** X18. The relevant tweets are the first 150 ranking candidates in the
    order of descending boosted score: there are at most 150 of them, their
    scores descend, and no candidate that is cut off has a higher score
    than one that is kept. *)
Theorem top150_are_the_highest_scores (now : Z) (grepMatches : JsSet.t)
    (userMessage : string) (allTweets : list Tweet) :
  let ranked :=
    Array_sort byScoreDesc
      (searchResults now grepMatches (extractSearchTerms userMessage) userMessage
         allTweets) in
  topRelevantTweets now grepMatches userMessage allTweets
  = map fst (firstn 150 ranked) /\
  (List.length (topRelevantTweets now grepMatches userMessage allTweets) <= 150)%nat /\
  StronglySorted (fun a b => (snd b <= snd a)%Q) (firstn 150 ranked) /\
  forall kept cut,
    In kept (firstn 150 ranked) -> In cut (skipn 150 ranked) ->
    (snd cut <= snd kept)%Q.
Proof.
  cbv zeta. split; [reflexivity|]. split.
  - unfold topRelevantTweets. rewrite length_map, length_firstn. apply Nat.le_min_l.
  - set (ranked := Array_sort byScoreDesc _).
    pose proof (sort_byScoreDesc_sorted
                  (searchResults now grepMatches (extractSearchTerms userMessage)
                     userMessage allTweets)) as Hs.
    fold ranked in Hs. rewrite <- (firstn_skipn 150 ranked) in Hs.
    apply StronglySorted_app_inv in Hs. exact Hs.
Qed.

(** ** Deduplication *)

Lemma dedupFrom_fixed (l : list Tweet) (seen : JsSet.t) :
  NoDup (map id l) ->
  (forall t, In t l -> JsSet.has seen (id t) = false) ->
  dedupFrom seen l = l.
Proof.
  intros Hnd Hseen. rewrite <- (app_nil_r l) at 1.
  rewrite dedupFrom_app by assumption. cbn [dedupFrom]. apply app_nil_r.
Qed.

(** X19. Deduplication is idempotent, and it is the identity on a list
    without repeated identifiers. *)
Theorem deduplicateTweets_idempotent (tweets : list Tweet) :
  deduplicateTweets (deduplicateTweets tweets) = deduplicateTweets tweets /\
  (NoDup (map id tweets) -> deduplicateTweets tweets = tweets).
Proof.
  rewrite !deduplicateTweets_eq. split.
  - apply dedupFrom_fixed; [apply dedupFrom_NoDup | reflexivity].
  - intros H. now apply dedupFrom_fixed.
Qed.

Lemma dedupFrom_first (l : list Tweet) (seen : JsSet.t) (t : Tweet) :
  In t (dedupFrom seen l) <->
  exists before rest,
    l = before ++ t :: rest /\ ~ In (id t) (map id before) /\
    JsSet.has seen (id t) = false.
Proof.
  revert seen. induction l as [| x l IH]; intros seen; cbn [dedupFrom].
  - split; [intros [] | intros [before [rest [H _]]]].
    destruct before; discriminate.
  - destruct (JsSet.has seen (id x)) eqn:Hx.
    + rewrite IH. split.
      * intros [before [rest [-> [Hnot Hseen]]]].
        exists (x :: before), rest. split; [reflexivity|]. split; [|assumption].
        cbn [map In]. intros [Heq | Hin]; [congruence | contradiction].
      * intros [before [rest [Heq [Hnot Hseen]]]].
        destruct before as [| y before]; cbn [app] in Heq; injection Heq as -> ->.
        -- congruence.
        -- exists before, rest. split; [reflexivity|]. split; [|assumption].
           intros Hin. apply Hnot. now right.
    + cbn [In]. rewrite IH. split.
      * intros [<- | [before [rest [-> [Hnot Hseen]]]]].
        -- exists [], l. split; [reflexivity|]. split; [intros [] | assumption].
        -- rewrite has_add in Hseen. apply orb_false_iff in Hseen.
           destruct Hseen as [Hseen Hne]. apply String.eqb_neq in Hne.
           exists (x :: before), rest. split; [reflexivity|]. split; [|assumption].
           cbn [map In]. intros [Heq | Hin]; [congruence | contradiction].
      * intros [before [rest [Heq [Hnot Hseen]]]].
        destruct before as [| y before]; cbn [app] in Heq; injection Heq as -> ->.
        -- now left.
        -- right. exists before, rest. split; [reflexivity|]. split.
           ++ intros Hin. apply Hnot. now right.
           ++ rewrite has_add, Hseen. cbn [orb]. apply String.eqb_neq.
              intros Heq. apply Hnot. left. now symmetry.
Qed.

(** X20. Deduplication keeps exactly the first occurrence of every
    identifier: a record is in the result if and only if it stands in the
    input at a place before which its identifier does not occur. *)
Theorem deduplicateTweets_keeps_first_occurrence (tweets : list Tweet)
    (tweet : Tweet) :
  In tweet (deduplicateTweets tweets) <->
  exists before rest,
    tweets = before ++ tweet :: rest /\ ~ In (id tweet) (map id before).
Proof.
  rewrite deduplicateTweets_eq, dedupFrom_first. split.
  - intros [before [rest [H1 [H2 _]]]]. now exists before, rest.
  - intros [before [rest [H1 H2]]]. exists before, rest. now repeat split.
Qed.

(** ** Assembly, once more *)

Lemma dedupFrom_length (l : list Tweet) (seen : JsSet.t) :
  (List.length (dedupFrom seen l) <= List.length l)%nat.
Proof.
  revert seen. induction l as [| x l IH]; intros seen; cbn [dedupFrom List.length];
    [lia|].
  destruct (JsSet.has seen (id x)); cbn [List.length].
  - specialize (IH seen). lia.
  - specialize (IH (JsSet.add seen (id x))). lia.
Qed.

(** X21. Every selected record is a record of the corpus. *)
Theorem selected_records_come_from_corpus (now : Z) (raw : RawStore)
    (userMessage : string) (allTweets : list Tweet) (tweet : Tweet) :
  In tweet (fst (searchAllTweets now raw userMessage allTweets)) ->
  In tweet allTweets.
Proof.
  rewrite searchAllTweets_fst. intros H.
  apply In_firstn, Array_sort_In in H. unfold combinedTweets in H.
  rewrite deduplicateTweets_eq in H. apply dedupFrom_In in H. destruct H as [H _].
  apply in_app_or in H. destruct H as [H | H].
  - now apply In_firstn in H.
  - now apply topRelevantTweets_candidates in H.
Qed.

(** X22. The selected records are handed over newest first, whatever the
    order of the corpus. *)
Theorem selected_records_newest_first (now : Z) (raw : RawStore)
    (userMessage : string) (allTweets : list Tweet) :
  newestFirst (fst (searchAllTweets now raw userMessage allTweets)).
Proof.
  rewrite searchAllTweets_fst. unfold newestFirst. apply Sorted_firstn.
  apply sort_byTimeDesc_newestFirst.
Qed.

(** X23. A corpus of at most 75 records is selected whole, whatever the
    query and the raw store: the selected set is the deduplicated corpus
    sorted by time. *)
Theorem small_corpus_selected_whole (now : Z) (raw : RawStore)
    (userMessage : string) (allTweets : list Tweet) :
  (List.length allTweets <= 75)%nat ->
  fst (searchAllTweets now raw userMessage allTweets)
  = Array_sort byTimeDesc (deduplicateTweets allTweets).
Proof.
  intros Hlen. rewrite searchAllTweets_fst. unfold combinedTweets.
  rewrite (firstn_all2 (n := 75) allTweets) by exact Hlen.
  rewrite !deduplicateTweets_eq, dedupFrom_absorb.
  - apply firstn_all2. rewrite Array_sort_length.
    pose proof (dedupFrom_length allTweets JsSet.empty). lia.
  - intros t Ht. left. now apply topRelevantTweets_candidates in Ht.
Qed.

(** ** Raw scan, once more *)

(** A loop that only adds to a set. *)
Lemma addingLoop_has {A : Type} (step : JsSet.t -> A -> JsSet.t)
    (adds : A -> string -> Prop) (l : list A) (found : JsSet.t) (x : string) :
  (forall acc a, JsSet.has (step acc a) x = true <->
                 JsSet.has acc x = true \/ adds a x) ->
  JsSet.has (fold_left step l found) x = true <->
  JsSet.has found x = true \/ exists a, In a l /\ adds a x.
Proof.
  intros Hstep. revert found. induction l as [| a l IH]; intros found;
    cbn [fold_left].
  - split; [now left | intros [H | [a [[] _]]]; exact H].
  - rewrite IH, Hstep. split.
    + intros [[H | H] | [b [Hb H]]].
      * now left.
      * right. exists a. split; [now left | assumption].
      * right. exists b. split; [now right | assumption].
    + intros [H | [b [[<- | Hb] H]]].
      * left. now left.
      * left. now right.
      * right. now exists b.
Qed.

Lemma scanContext_has (lines : list string) (i : nat) (found : JsSet.t) (x : string) :
  JsSet.has (scanContext lines i found) x = true <->
  JsSet.has found x = true \/
  exists j, (i - 20 <= j < Nat.min (List.length lines) (i + 20))%nat /\
            Regex.match_id (nth j lines ""%string) = Some x.
Proof.
  unfold scanContext.
  rewrite (addingLoop_has _
             (fun j x => Regex.match_id (nth j lines ""%string) = Some x)).
  - split; (intros [H | [j [Hj H]]]; [now left | right; exists j; split; [|exact H]]).
    + apply in_seq in Hj. lia.
    + apply in_seq. lia.
  - intros acc j. destruct (Regex.match_id (nth j lines ""%string)) as [y |].
    + rewrite has_add. rewrite orb_true_iff, String.eqb_eq. split.
      * intros [H | ->]; [now left | now right].
      * intros [H | H]; [now left | right; congruence].
    + split; [now left | intros [H | H]; [exact H | discriminate]].
Qed.

Lemma scanLines_has (terms lines : list string) (x : string) :
  JsSet.has (scanLines terms lines) x = true <->
  exists i j,
    (i < List.length lines)%nat /\
    lineHasMatch terms (JsString.toLowerCase (nth i lines ""%string)) = true /\
    (i - 20 <= j < Nat.min (List.length lines) (i + 20))%nat /\
    Regex.match_id (nth j lines ""%string) = Some x.
Proof.
  unfold scanLines.
  rewrite (addingLoop_has _
             (fun i x =>
                lineHasMatch terms (JsString.toLowerCase (nth i lines ""%string)) = true /\
                exists j, (i - 20 <= j < Nat.min (List.length lines) (i + 20))%nat /\
                          Regex.match_id (nth j lines ""%string) = Some x)).
  - split.
    + intros [H | [i [Hi [Hm [j [Hj H]]]]]]; [discriminate|].
      exists i, j. apply in_seq in Hi. repeat split; try assumption; lia.
    + intros [i [j [Hi [Hm [Hj H]]]]]. right. exists i. split; [apply in_seq; lia|].
      split; [assumption|]. now exists j.
  - intros acc i. cbv zeta.
    destruct (lineHasMatch terms (JsString.toLowerCase (nth i lines ""%string))).
    + rewrite scanContext_has. split.
      * intros [H | H]; [now left | right; now split].
      * intros [H | [_ H]]; [now left | now right].
    + split; [now left | intros [H | [H _]]; [exact H | discriminate]].
Qed.

(** X24. The raw scan of a readable store finds exactly the identifiers
    that stand on a line within the 20 lines before, or the 19 lines
    after, a line that contains a search term (the line itself included):
    the window of a matching line [i] is the lines [i - 20] to [i + 19]. *)
Theorem raw_scan_window (content : string) (searchTerms : list string)
    (identifier : string) :
  let lines := JsString.split_lines content in
  In identifier (fst (grepSearchJsonFile (Some content) searchTerms)) <->
  exists i j,
    (i < List.length lines)%nat /\
    lineHasMatch searchTerms (JsString.toLowerCase (nth i lines ""%string)) = true /\
    (i - 20 <= j < Nat.min (List.length lines) (i + 20))%nat /\
    Regex.match_id (nth j lines ""%string) = Some identifier.
Proof.
  cbv zeta. unfold grepSearchJsonFile, grepTry. cbn [readFile fst].
  rewrite <- has_In. apply scanLines_has.
Qed.

(** ** The identifier pattern *)

Lemma isSpace_not_quote (c : ascii) :
  JsString.isSpace c = true -> JsString.isQuote c = false.
Proof. destruct c as [[] [] [] [] [] [] [] []]; cbn; congruence. Qed.

Lemma idMatchAt_no_quote (c : ascii) (s : string) :
  JsString.isQuote c = false -> Regex.idMatchAt (String c s) = None.
Proof.
  intros H. unfold Regex.idMatchAt, Regex.idKey, JsString.quote. cbn [append String.prefix].
  destruct (ascii_dec JsString.dquote c) as [<- | _]; [|reflexivity].
  cbv in H. discriminate.
Qed.

Lemma match_id_skips_indent (indent s : string) :
  allSpaces indent = true ->
  Regex.match_id (indent ++ s)%string = Regex.match_id s.
Proof.
  unfold allSpaces. induction indent as [| c indent IH]; cbn; [reflexivity|].
  intros H. apply andb_true_iff in H. destruct H as [Hc Hi].
  fold (Regex.match_id (indent ++ s)%string).
  rewrite (idMatchAt_no_quote c _ (isSpace_not_quote c Hc)). now apply IH.
Qed.

Lemma dropn_app (a b : string) : Regex.dropn (String.length a) (a ++ b)%string = b.
Proof. induction a as [| c a IH]; cbn; [now destruct b | exact IH]. Qed.

Lemma skipSpaces_app (sp : string) (c : ascii) (s : string) :
  allSpaces sp = true -> JsString.isSpace c = false ->
  Regex.skipSpaces (sp ++ String c s)%string = String c s.
Proof.
  unfold allSpaces. intros Hsp Hc. induction sp as [| d sp IH]; cbn.
  - now rewrite Hc.
  - cbn in Hsp. apply andb_true_iff in Hsp. destruct Hsp as [Hd Hsp].
    rewrite Hd. now apply IH.
Qed.

Lemma quotedRun_app (x cur rest : string) :
  noQuote x = true -> (cur ++ x)%string <> ""%string ->
  Regex.quotedRun cur (x ++ String JsString.dquote rest)%string = Some (cur ++ x)%string.
Proof.
  unfold noQuote. revert cur.
  induction x as [| c x IH]; intros cur Hx Hne; cbn [append Regex.quotedRun].
  - rewrite append_nil_r in *.
    change (JsString.isQuote JsString.dquote) with true. cbv iota.
    destruct cur; [congruence | reflexivity].
  - cbn in Hx. apply andb_true_iff in Hx. destruct Hx as [Hc Hx].
    apply negb_true_iff in Hc. rewrite Hc.
    rewrite (IH (JsString.snoc cur c) Hx).
    + now rewrite snoc_append.
    + rewrite snoc_append. exact Hne.
Qed.

(** X25. The identifier pattern reads back what the export writes: on a
    line made of an indentation, the key [id] in double quotes, a colon,
    optional white space and a value in double quotes, followed by
    anything, the match is the value, provided the value is not empty and
    holds no double quote. *)
Theorem match_id_reads_quoted_value (indent gap value rest : string) :
  allSpaces indent = true ->
  allSpaces gap = true ->
  noQuote value = true ->
  value <> ""%string ->
  Regex.match_id
    (indent ++ JsString.quote "id" ++ ":" ++ gap ++ JsString.quote value ++ rest)%string
  = Some value.
Proof.
  intros Hindent Hgap Hvalue Hne.
  rewrite match_id_skips_indent by exact Hindent.
  assert (Hkey : (JsString.quote "id" ++ ":" ++ gap ++ JsString.quote value ++ rest)%string
                 = (Regex.idKey ++ gap ++ String JsString.dquote
                      (value ++ String JsString.dquote rest))%string).
  { unfold Regex.idKey. rewrite <- !string_app_assoc. do 3 f_equal.
    unfold JsString.quote. cbn [append]. f_equal.
    rewrite <- string_app_assoc. reflexivity. }
  rewrite Hkey.
  set (tail := (gap ++ String JsString.dquote
                  (value ++ String JsString.dquote rest))%string).
  assert (Hat : Regex.idMatchAt (Regex.idKey ++ tail)%string = Some value).
  { unfold Regex.idMatchAt. rewrite prefix_app, dropn_app. unfold tail.
    rewrite skipSpaces_app by (assumption || reflexivity).
    change (JsString.isQuote JsString.dquote) with true. cbv iota.
    now rewrite quotedRun_app. }
  destruct (Regex.idKey ++ tail)%string eqn:E; cbn [Regex.match_id]; now rewrite Hat.
Qed.

(** ** The chunks of a reply *)

Lemma nonEmpty_true (s : string) : nonEmpty s = true <-> s <> ""%string.
Proof.
  unfold nonEmpty. rewrite negb_true_iff. apply String.eqb_neq.
Qed.

Lemma nonEmpty_false (s : string) : nonEmpty s = false <-> s = ""%string.
Proof.
  unfold nonEmpty. rewrite negb_false_iff. apply String.eqb_eq.
Qed.

Lemma string_length_app (a b : string) :
  String.length (a ++ b)%string = (String.length a + String.length b)%nat.
Proof. induction a as [| c a IH]; cbn; [reflexivity | now rewrite IH]. Qed.

Lemma substring_length_le (n : nat) (s : string) :
  (String.length (String.substring 0 n s) <= n)%nat.
Proof.
  revert s. induction n as [| n IH]; intros s; destruct s as [| c s]; cbn;
    try lia. specialize (IH s). lia.
Qed.

Lemma substring_not_empty (n : nat) (s : string) :
  (0 < n)%nat -> s <> ""%string -> String.substring 0 n s <> ""%string.
Proof.
  intros Hn Hs. destruct n; [lia|]. destruct s; [congruence | discriminate].
Qed.

Lemma splitSentences_head (s : string) (prev : option ascii) (cur : string) :
  exists first rest,
    splitSentences_aux false prev cur s = first :: rest /\
    (cur <> ""%string -> first <> ""%string).
Proof.
  revert prev cur. induction s as [| c s IH]; intros prev cur;
    cbn [splitSentences_aux].
  - now exists cur, [].
  - destruct (JsString.isSpace c && (false || isSentenceEnd prev)).
    + eexists cur, _. split; [reflexivity | tauto].
    + destruct (IH (Some c) (JsString.snoc cur c)) as [first [rest [Heq Hne]]].
      exists first, rest. split; [exact Heq|]. intros _. apply Hne.
      apply snoc_not_empty.
Qed.

Lemma splitSentences_first (message : string) :
  message <> ""%string ->
  exists first rest, splitSentences message = first :: rest /\ first <> ""%string.
Proof.
  intros Hne. destruct message as [| c s]; [congruence|].
  unfold splitSentences. cbn [splitSentences_aux isSentenceEnd orb].
  rewrite andb_false_r.
  destruct (splitSentences_head s (Some c) (JsString.snoc "" c))
    as [first [rest [Heq Hfirst]]].
  exists first, rest. split; [exact Heq|]. apply Hfirst. discriminate.
Qed.

(** What a turn of the loop keeps: no chunk is empty. *)
Lemma splitStep_chunks_not_empty (chunks : list string) (cur sentence : string) :
  Forall (fun c => c <> ""%string) chunks ->
  Forall (fun c => c <> ""%string) (fst (splitStep (chunks, cur) sentence)).
Proof.
  intros H. unfold splitStep.
  destruct (_ <=? maxLength)%nat eqn:Hfit; [exact H|].
  destruct (nonEmpty cur) eqn:Hcur; cbn [fst]; apply Forall_app; split;
    try exact H; (apply Forall_cons; [|apply Forall_nil]).
  - now apply nonEmpty_true.
  - apply Nat.leb_gt in Hfit. apply nonEmpty_false in Hcur. subst cur.
    cbn [String.length] in Hfit. unfold maxLength in *.
    apply substring_not_empty; [lia|]. intros ->. cbn in Hfit. lia.
Qed.

(** What a turn of the loop keeps: something has been collected. *)
Lemma splitStep_progress (chunks : list string) (cur sentence : string) :
  chunks <> [] \/ cur <> ""%string \/ sentence <> ""%string ->
  fst (splitStep (chunks, cur) sentence) <> [] \/
  snd (splitStep (chunks, cur) sentence) <> ""%string.
Proof.
  intros H. unfold splitStep.
  destruct (_ <=? maxLength)%nat eqn:Hfit; cbn [fst snd].
  - destruct H as [H | [H | H]]; [now left | right | right].
    + destruct cur; [congruence | discriminate].
    + destruct cur; cbn; [exact H | discriminate].
  - destruct (nonEmpty cur); cbn [fst snd]; left; intros Heq;
      apply app_eq_nil in Heq; destruct Heq; discriminate.
Qed.

Lemma splitLoop_invariant (sentences : list string) (chunks : list string)
    (cur : string) :
  Forall (fun c => c <> ""%string) chunks ->
  chunks <> [] \/ cur <> ""%string ->
  let final := fold_left splitStep sentences (chunks, cur) in
  Forall (fun c => c <> ""%string) (fst final) /\
  (fst final <> [] \/ snd final <> ""%string).
Proof.
  cbv zeta. revert chunks cur. induction sentences as [| s l IH];
    intros chunks cur Hall Hsome; cbn [fold_left].
  - now split.
  - pose proof (splitStep_chunks_not_empty chunks cur s Hall) as H1.
    pose proof (splitStep_progress chunks cur s ltac:(tauto)) as H2.
    destruct (splitStep (chunks, cur) s) as [chunks' cur'].
    now apply IH.
Qed.

(** X26. The bot always has a first chunk to reply with, and it never
    sends an empty chunk unless the whole reply is empty. *)
Theorem splitMessage_chunks_not_empty (message : string) :
  splitMessage message <> [] /\
  (message <> ""%string ->
   forall chunk, In chunk (splitMessage message) -> chunk <> ""%string).
Proof.
  unfold splitMessage.
  destruct (String.length message <=? maxLength)%nat eqn:Hlen.
  - split; [discriminate|]. intros Hne chunk [<- | []]. exact Hne.
  - assert (Hne : message <> ""%string) by (intros ->; discriminate).
    destruct (splitSentences_first message Hne) as [first [rest [Heq Hfirst]]].
    rewrite Heq. cbn [fold_left].
    pose proof (splitStep_chunks_not_empty [] ""%string first (Forall_nil _)) as H0.
    pose proof (splitStep_progress [] ""%string first ltac:(tauto)) as H1.
    destruct (splitStep ([], ""%string) first) as [chunks0 cur0].
    cbn [fst snd] in H0, H1.
    destruct (splitLoop_invariant rest chunks0 cur0 H0 H1) as [Hall Hsome].
    destruct (fold_left splitStep rest (chunks0, cur0)) as [chunks cur].
    cbn [fst snd] in *. destruct (nonEmpty cur) eqn:Hcur.
    + split.
      * intros H. apply app_eq_nil in H. destruct H; discriminate.
      * intros _ chunk Hin. apply in_app_or in Hin. destruct Hin as [Hin | [<- | []]].
        -- rewrite Forall_forall in Hall. now apply Hall.
        -- now apply nonEmpty_true.
    + apply nonEmpty_false in Hcur. split.
      * destruct Hsome; [assumption | congruence].
      * intros _ chunk Hin. rewrite Forall_forall in Hall. now apply Hall.
Qed.

Lemma splitStep_bounded (chunks : list string) (cur sentence : string) :
  Forall (fun c => String.length c <= maxLength)%nat chunks ->
  (String.length cur <= maxLength)%nat ->
  (String.length sentence <= maxLength)%nat ->
  Forall (fun c => String.length c <= maxLength)%nat
    (fst (splitStep (chunks, cur) sentence)) /\
  (String.length (snd (splitStep (chunks, cur) sentence)) <= maxLength)%nat.
Proof.
  intros Hall Hcur Hs. unfold splitStep.
  destruct (_ <=? maxLength)%nat eqn:Hfit; cbn [fst snd].
  - split; [exact Hall|]. apply Nat.leb_le in Hfit.
    rewrite !string_length_app. destruct (nonEmpty cur); cbn [String.length]; lia.
  - destruct (nonEmpty cur); cbn [fst snd].
    + split; [|exact Hs]. apply Forall_app. split; [exact Hall|].
      apply Forall_cons; [exact Hcur | apply Forall_nil].
    + split; [|exact Hcur]. apply Forall_app. split; [exact Hall|].
      apply Forall_cons; [apply substring_length_le | apply Forall_nil].
Qed.

(** X27. When no sentence of a reply is longer than 2000 characters, no
    chunk is. *)
Theorem splitMessage_chunks_bounded (message : string) :
  Forall (fun sentence => String.length sentence <= 2000)%nat
    (splitSentences message) ->
  forall chunk, In chunk (splitMessage message) -> (String.length chunk <= 2000)%nat.
Proof.
  intros Hsent. unfold splitMessage.
  destruct (String.length message <=? maxLength)%nat eqn:Hlen.
  - intros chunk [<- | []]. now apply Nat.leb_le in Hlen.
  - assert (Hloop : forall sentences chunks cur,
               Forall (fun s => String.length s <= maxLength)%nat sentences ->
               Forall (fun c => String.length c <= maxLength)%nat chunks ->
               (String.length cur <= maxLength)%nat ->
               Forall (fun c => String.length c <= maxLength)%nat
                 (fst (fold_left splitStep sentences (chunks, cur))) /\
               (String.length (snd (fold_left splitStep sentences (chunks, cur)))
                <= maxLength)%nat).
    { induction sentences as [| s l IH]; intros chunks cur Hs Hc Hcur;
        cbn [fold_left]; [now split|].
      inversion Hs as [| ? ? Hs1 Hs2]; subst.
      destruct (splitStep_bounded chunks cur s Hc Hcur Hs1) as [H1 H2].
      destruct (splitStep (chunks, cur) s) as [chunks' cur'].
      now apply IH. }
    destruct (Hloop (splitSentences message) [] ""%string Hsent
                (Forall_nil _) (Nat.le_0_l _)) as [Hall Hcur].
    destruct (fold_left splitStep (splitSentences message) ([], ""%string))
      as [chunks cur].
    cbn [fst snd] in *. rewrite Forall_forall in Hall.
    destruct (nonEmpty cur); intros chunk Hin.
    + apply in_app_or in Hin. destruct Hin as [Hin | [<- | []]];
        [now apply Hall | exact Hcur].
    + now apply Hall.
Qed.

Lemma concat_snoc (sep : string) (l : list string) (x : string) :
  l <> [] ->
  String.concat sep (l ++ [x]) = (String.concat sep l ++ sep ++ x)%string.
Proof.
  induction l as [| a l IH]; [congruence|]. intros _.
  destruct l as [| b l].
  - reflexivity.
  - change (String.concat sep ((a :: b :: l) ++ [x]))
      with (a ++ sep ++ String.concat sep ((b :: l) ++ [x]))%string.
    rewrite IH by discriminate.
    change (String.concat sep (a :: b :: l))
      with (a ++ sep ++ String.concat sep (b :: l))%string.
    now rewrite <- !string_app_assoc.
Qed.

Lemma concat_grow_last (sep : string) (l : list string) (y x : string) :
  String.concat sep (l ++ [(y ++ sep ++ x)%string])
  = (String.concat sep (l ++ [y]) ++ sep ++ x)%string.
Proof.
  destruct l as [| a l].
  - reflexivity.
  - rewrite !concat_snoc by discriminate. now rewrite <- !string_app_assoc.
Qed.

Lemma concat_fold (sep : string) (l : list string) (x : string) :
  fold_left (fun acc s => (acc ++ sep ++ s)%string) l x = String.concat sep (x :: l).
Proof.
  revert x. induction l as [| a l IH]; intros x; cbn [fold_left]; [reflexivity|].
  rewrite IH. destruct l as [| b l].
  - reflexivity.
  - change (String.concat sep ((x ++ sep ++ a)%string :: b :: l))
      with ((x ++ sep ++ a) ++ sep ++ String.concat sep (b :: l))%string.
    change (String.concat sep (x :: a :: b :: l))
      with (x ++ sep ++ a ++ sep ++ String.concat sep (b :: l))%string.
    now rewrite <- !string_app_assoc.
Qed.

(** A turn of the loop on a chunk in progress that is not empty: the
    sentence is added after a space, or it starts the next chunk. *)
Lemma splitStep_join (chunks : list string) (cur sentence : string) :
  cur <> ""%string -> sentence <> ""%string ->
  snd (splitStep (chunks, cur) sentence) <> ""%string /\
  String.concat " " (fst (splitStep (chunks, cur) sentence)
                     ++ [snd (splitStep (chunks, cur) sentence)])
  = (String.concat " " (chunks ++ [cur]) ++ " " ++ sentence)%string.
Proof.
  intros Hcur Hs. unfold splitStep.
  rewrite (proj2 (nonEmpty_true cur) Hcur).
  destruct (_ <=? maxLength)%nat; cbn [fst snd].
  - split; [destruct cur; [congruence | discriminate]|]. apply concat_grow_last.
  - split; [exact Hs|]. apply concat_snoc. intros H. apply app_eq_nil in H.
    destruct H; discriminate.
Qed.

Lemma splitLoop_join (sentences chunks : list string) (cur : string) :
  cur <> ""%string ->
  Forall (fun s => s <> ""%string) sentences ->
  snd (fold_left splitStep sentences (chunks, cur)) <> ""%string /\
  String.concat " " (fst (fold_left splitStep sentences (chunks, cur))
                     ++ [snd (fold_left splitStep sentences (chunks, cur))])
  = fold_left (fun acc s => (acc ++ " " ++ s)%string) sentences
      (String.concat " " (chunks ++ [cur])).
Proof.
  revert chunks cur. induction sentences as [| s l IH]; intros chunks cur Hcur Hs;
    cbn [fold_left].
  - now split.
  - inversion Hs as [| ? ? Hs1 Hs2]; subst.
    destruct (splitStep_join chunks cur s Hcur Hs1) as [H1 H2].
    destruct (splitStep (chunks, cur) s) as [chunks' cur']. cbn [fst snd] in H1, H2.
    rewrite <- H2. now apply IH.
Qed.

(** X28. A long reply whose first sentence is shorter than 2000
    characters and which does not end in a separator loses no text: the
    chunks joined by single spaces are the sentences joined by single
    spaces. *)
Theorem splitMessage_keeps_text (message first : string) (rest : list string) :
  (2000 < String.length message)%nat ->
  splitSentences message = first :: rest ->
  (String.length first < 2000)%nat ->
  Forall (fun sentence => sentence <> ""%string) rest ->
  String.concat " " (splitMessage message)
  = String.concat " " (splitSentences message).
Proof.
  intros Hlong Hsplit Hfirst Hrest. unfold splitMessage.
  assert (Hlen : (String.length message <=? maxLength)%nat = false)
    by (apply Nat.leb_gt; unfold maxLength; lia).
  rewrite Hlen.
  assert (Hne : first <> ""%string).
  { destruct (splitSentences_first message) as [f [r [Heq Hf]]].
    - intros ->. cbn in Hlong. lia.
    - rewrite Hsplit in Heq. now injection Heq as -> _. }
  rewrite Hsplit. cbn [fold_left].
  assert (Hstep : splitStep ([], ""%string) first = ([], first)).
  { unfold splitStep. cbn [String.length Nat.add nonEmpty String.eqb negb].
    assert (Hfit : (String.length first + 1 <=? maxLength)%nat = true)
      by (apply Nat.leb_le; unfold maxLength; lia).
    now rewrite Hfit. }
  rewrite Hstep.
  destruct (splitLoop_join rest [] first Hne Hrest) as [Hcur Hcat].
  destruct (fold_left splitStep rest ([], first)) as [chunks cur].
  cbn [fst snd] in Hcur, Hcat.
  rewrite (proj2 (nonEmpty_true cur) Hcur), Hcat.
  apply concat_fold.
Qed.

(** ** The further properties on sample inputs *)

Lemma load_leaves_corpus_newest_first_witness :
  let loaded :=
    after (loadJsonData JsString.ofZ sampleParse sampleDate sampleWorld freshService) in
  isLoaded loaded = true /\
  newestFirst (tweets loaded) /\
  mainHandle loaded = mainHandle freshService /\
  retweetHandles loaded = retweetHandles freshService /\
  jsonFilePath loaded = jsonFilePath freshService.
Proof.
  apply (load_leaves_corpus_newest_first JsString.ofZ sampleParse sampleDate
           sampleWorld freshService).
  reflexivity.
Defined.

Lemma loaded_corpus_is_filtered_export_witness :
  let loaded :=
    after (loadJsonData JsString.ofZ sampleParse sampleDate sampleWorld freshService) in
  jsonData loaded = sampleJson /\
  Permutation (tweets loaded)
    (map (convertJsonTweetToTweet sampleDate (mainHandle freshService))
       (filter (keepJsonTweet (retweetHandles freshService)) sampleJson)) /\
  (List.length (tweets loaded) <= List.length sampleJson)%nat.
Proof.
  destruct (loaded_corpus_is_filtered_export JsString.ofZ sampleParse sampleDate
              sampleWorld freshService "export" sampleJson
              eq_refl eq_refl eq_refl) as [H1 [H2 [H3 _]]].
  cbv zeta. split; [exact H1|]. split; [exact H2 | exact H3].
Defined.

Lemma retweet_of_configured_handle_kept_witness :
  keepJsonTweet ["kurosunco"%string]
    (mkJsonTweet "12" "2025-07-02" "RT @KurosunCo: Samurai is live" "tekkusai" 0 5 0)
  = true.
Proof.
  apply (retweet_of_configured_handle_kept ["kurosunco"%string] "KurosunCo"
           " Samurai is live").
  - simpl. left. reflexivity.
  - reflexivity.
Defined.

Lemma getTweetStats_average_is_rounded_mean_witness :
  let stats :=
    result (getTweetStats JsString.ofZ sampleParse sampleDate sampleWorld
              loadedService) in
  2 * 2 * averageLength stats - 2
  <= 2 * totalTextLength [newerTweet; olderTweet]
  < 2 * 2 * averageLength stats + 2.
Proof.
  apply (getTweetStats_average_is_rounded_mean JsString.ofZ sampleParse sampleDate
           sampleWorld loadedService).
  vm_compute. discriminate.
Defined.


Lemma matching_record_is_candidate_witness :
  In newerTweet
    (map fst (searchResults sampleNow JsSet.empty ["post"%string] "post"
                [newerTweet; olderTweet])).
Proof.
  apply (matching_record_is_candidate sampleNow JsSet.empty ["post"%string] "post"
           [newerTweet; olderTweet] newerTweet).
  - vm_compute. discriminate.
  - simpl. left. reflexivity.
  - right. exists "post"%string. split; [simpl; left; reflexivity | reflexivity].
Defined.

Lemma selected_records_come_from_corpus_witness :
  In olderTweet [newerTweet; olderTweet].
Proof.
  apply (selected_records_come_from_corpus sampleNow None "post"
           [newerTweet; olderTweet] olderTweet).
  vm_compute. right. left. reflexivity.
Defined.

Lemma small_corpus_selected_whole_witness :
  fst (searchAllTweets sampleNow sampleRaw "ninja" [newerTweet; olderTweet])
  = Array_sort byTimeDesc (deduplicateTweets [newerTweet; olderTweet]).
Proof.
  apply (small_corpus_selected_whole sampleNow sampleRaw "ninja"
           [newerTweet; olderTweet]).
  simpl. lia.
Defined.

Lemma match_id_reads_quoted_value_witness :
  Regex.match_id
    ("  " ++ JsString.quote "id" ++ ":" ++ " " ++ JsString.quote "42" ++ ",")%string
  = Some "42"%string.
Proof.
  apply (match_id_reads_quoted_value "  " " " "42" ",").
  - reflexivity.
  - reflexivity.
  - reflexivity.
  - discriminate.
Defined.

Lemma splitMessage_chunks_bounded_witness :
  (String.length (nth 0 (splitMessage longReply) ""%string) <= 2000)%nat.
Proof.
  apply (splitMessage_chunks_bounded longReply).
  - apply Forall_forall. intros sentence Hin. apply Nat.leb_le.
    revert sentence Hin. apply forallb_forall. vm_compute. reflexivity.
  - vm_compute. left. reflexivity.
Defined.

Lemma splitMessage_keeps_text_witness :
  String.concat " " (splitMessage longReply)
  = String.concat " " (splitSentences longReply).
Proof.
  apply (splitMessage_keeps_text longReply "abcdefg."
           (tl (splitSentences longReply))).
  - vm_compute. lia.
  - vm_compute. reflexivity.
  - vm_compute. lia.
  - apply Forall_forall. intros sentence Hin. apply nonEmpty_true.
    revert sentence Hin. apply forallb_forall. vm_compute. reflexivity.
Defined.

(** ** Quoted phrases and the final cut *)





(** The cut after a newest-first sort keeps the newest records. *)
Section NewestKept.
Variable union : list Tweet.
Variable limit : nat.

Let sorted := Array_sort byTimeDesc union.
Let kept := firstn limit sorted.







End NewestKept.



